(** * xlsft/logger: a shallow embedding of [mod.ts] and its specification

    The module exports one class, [Logger], which formats log records,
    keeps them in an array ([logarr]), mirrors every formatted line to the
    console and emits every record to the subscribers of its ["log"] event.

    JavaScript arrays and object literals are heap objects that are shared
    by reference: [generate_array] hands out the internal array itself,
    [snapshot] a new array holding the same record objects.  The embedding
    therefore keeps an explicit store of objects and passes references
    around; the methods are written in a small state-and-failure monad over
    that store, the console and the emitter's state. *)

From Stdlib Require Import ZArith String Ascii List DecimalString Lia.
From stdpp Require Import base tactics option list strings numbers.

Local Open Scope Z_scope.

(** ** Collaborators that are not part of the module *)

(** The [chalk] package: only the five decorations [mod.ts] uses.  The
    decorations are kept abstract; [ansi] below is the instance with the
    escape sequences chalk emits on a colour terminal. *)
Module chalk.
Class t : Type := Build {
  blue : string → string;
  yellowBright : string → string;
  red : string → string;
  yellow : string → string;
  cyan : string → string
}.

Definition esc : string := String (ascii_of_nat 27) "[".

Definition sgr (open : string) (s : string) : string :=
  esc +:+ open +:+ "m" +:+ s +:+ esc +:+ "39m".

Definition ansi : t :=
  {| blue := sgr "34"; yellowBright := sgr "93"; red := sgr "31";
     yellow := sgr "33"; cyan := sgr "36" |}.

(** The instance for an output without colour support: every decoration
    returns its argument. *)
Definition none : t :=
  {| blue := λ s, s; yellowBright := λ s, s; red := λ s, s;
     yellow := λ s, s; cyan := λ s, s |}.
End chalk.

(** [new Date()]: the reading of the system clock, already rendered for the
    resolved locale ([OSLocale]).  The clock is an input of every
    record-creating call. *)
Record Date : Type := mkDate {
  toLocaleString : string;
  getMilliseconds : N
}.

(** Template-literal conversion of a non-negative integer. *)
Definition Number_toString (n : N) : string :=
  NilZero.string_of_uint (N.to_uint n).

(** [String.prototype.toUpperCase] on the ASCII letters. *)
Definition Ascii_toUpperCase (c : ascii) : ascii :=
  let n := nat_of_ascii c in
  if (97 <=? n)%nat && (n <=? 122)%nat then ascii_of_nat (n - 32) else c.

Fixpoint toUpperCase (s : string) : string :=
  match s with
  | EmptyString => EmptyString
  | String c s' => String (Ascii_toUpperCase c) (toUpperCase s')
  end.

(** The line feed, ["\n"]. *)
Definition newline : string := String (ascii_of_nat 10) EmptyString.

(** [Array.prototype.join] on an array of strings. *)
Definition join (sep : string) (xs : list string) : string :=
  String.concat sep xs.

(** ** The data model of [mod.ts] *)

Inductive LogType : Type := Default | Info | Warn | Error.

(** The reverse mapping [LogType[t]] of the TypeScript enum. *)
Definition LogType_name (t : LogType) : string :=
  match t with
  | Default => "Default"
  | Info => "Info"
  | Warn => "Warn"
  | Error => "Error"
  end.

#[global] Instance LogType_eq_dec : EqDecision LogType.
Proof. solve_decision. Defined.

Record LogObject : Type := mkLogObject {
  timestamp : string;
  msg : string;
  from : option string;
  log : string;
  type : LogType
}.

(** [maxStackSize] is a JavaScript number; the specification speaks of
    integer capacities only, so the field is an optional integer. *)
Record LoggerOptions : Type := mkLoggerOptions {
  maxStackSize : option Z;
  colored : option bool
}.

(** [type PrepareLog = Omit<LogObject, "log" | "timestamp">] *)
Module PrepareLog.
Record t : Type := mk {
  msg : string;
  from : option string;
  type : LogType
}.
End PrepareLog.

(** ** The store *)

(** References are indices into the store; allocation appends. *)
Definition loc : Type := nat.

Inductive obj : Type :=
  | OArr (elems : list loc)     (* a [LogObject[]] *)
  | ORec (r : LogObject).       (* a [LogObject] *)

(** What a subscriber is handed, together with what it can observe of the
    logger at the moment it is called. *)
Record notification : Type := mkNotification {
  n_subscriber : nat;
  n_record : loc;
  n_buffer : list loc;
  n_console : list string
}.

(** The world of one logger: the store, the console, and the state of the
    emitter the logger inherits from. *)
Record World : Type := mkWorld {
  store : list obj;
  console : list string;         (* lines written by [console.log] *)
  listeners : list nat;          (* subscribers of ["log"], oldest first *)
  delivered : list notification  (* calls of subscribers, oldest first *)
}.

Definition set_store (w : World) (σ : list obj) : World :=
  {| store := σ; console := console w;
     listeners := listeners w; delivered := delivered w |}.

(** The fields of a [Logger] instance are never reassigned; the array that
    [logarr] refers to is updated in place. *)
Record Logger : Type := mkLogger {
  options : option LoggerOptions;
  logarr : loc
}.

(** ** State and failure *)

Definition M (A : Type) : Type := World → option (A * World).

Definition ret {A} (a : A) : M A := λ w, Some (a, w).

Definition bind {A B} (m : M A) (k : A → M B) : M B :=
  λ w, match m w with
       | Some (a, w') => k a w'
       | None => None
       end.

Definition throw {A} : M A := λ _, None.

Notation "x <- m ;; k" := (bind m (λ x, k))
  (at level 100, m at next level, right associativity).
Notation "m ;; k" := (bind m (λ _, k))
  (at level 100, right associativity).

Fixpoint mapM_ {A B} (f : A → M B) (xs : list A) : M (list B) :=
  match xs with
  | [] => ret []
  | x :: xs' => y <- f x ;; ys <- mapM_ f xs' ;; ret (y :: ys)
  end.

Fixpoint foldM {A B} (f : B → A → M B) (b : B) (xs : list A) : M B :=
  match xs with
  | [] => ret b
  | x :: xs' => b' <- f b x ;; foldM f b' xs'
  end.

(** Object literals and array literals allocate. *)
Definition alloc (o : obj) : M loc :=
  λ w, Some (length (store w), set_store w (store w ++ [o])).

Definition read_arr (l : loc) : M (list loc) :=
  λ w, match store w !! l with
       | Some (OArr xs) => Some (xs, w)
       | _ => None
       end.

Definition write_arr (l : loc) (xs : list loc) : M unit :=
  λ w, match store w !! l with
       | Some (OArr _) => Some (tt, set_store w (<[l := OArr xs]> (store w)))
       | _ => None
       end.

(** Reading a field of something that is not a record throws. *)
Definition read_rec (l : loc) : M LogObject :=
  λ w, match store w !! l with
       | Some (ORec r) => Some (r, w)
       | _ => None
       end.

(** An assignment to the fields of a record; the module has none, a
    caller that holds a record can make one. *)
Definition write_rec (l : loc) (r : LogObject) : M unit :=
  λ w, match store w !! l with
       | Some (ORec _) => Some (tt, set_store w (<[l := ORec r]> (store w)))
       | _ => None
       end.

(** The array methods the module uses. *)
Definition Array_length (a : loc) : M nat :=
  xs <- read_arr a ;; ret (length xs).

Definition Array_shift (a : loc) : M (option loc) :=
  xs <- read_arr a ;;
  write_arr a (tail xs) ;;
  ret (head xs).

Definition Array_push (a : loc) (x : loc) : M unit :=
  xs <- read_arr a ;; write_arr a (xs ++ [x]).

(** [[...a]] *)
Definition Array_spread (a : loc) : M loc :=
  xs <- read_arr a ;; alloc (OArr xs).

Definition console_log (line : string) : M unit :=
  λ w, Some (tt, {| store := store w; console := console w ++ [line];
                    listeners := listeners w; delivered := delivered w |}).

(** ** The emitter *)

(** The [EventEmitter] base class comes from the package
    [@denosaurs/event], which is not part of the module; it is modelled
    after section 4.4 of the specification.  A subscriber is modelled as an
    observer: every call of a subscriber is logged in [delivered], with the
    record it is handed and with the buffer and the console lines it would
    see if it looked at them during the call. *)

(** Modelled from the spec: [super()], the constructor of [EventEmitter];
    a new emitter has no subscribers. *)
Definition EventEmitter_new : M unit :=
  λ w, Some (tt, {| store := store w; console := console w;
                    listeners := [];
                    delivered := delivered w |}).

(** Modelled from the spec: [on("log", s)], the registration of a
    subscriber; subscribers are kept in subscription order. *)
Definition on (s : nat) : M unit :=
  λ w, Some (tt, {| store := store w; console := console w;
                    listeners := listeners w ++ [s];
                    delivered := delivered w |}).

(** Modelled from the spec: the calls of the subscribers, one after the
    other in subscription order, before [emit] returns. *)
Definition notify (record : loc) (seen : list loc) : M unit :=
  λ w, Some (tt, {| store := store w; console := console w;
                    listeners := listeners w;
                    delivered := delivered w ++
                      map (λ s, mkNotification s record seen (console w))
                          (listeners w) |}).

(** Modelled from the spec: [this.emit("log", record)]; all current
    subscribers are notified synchronously with the record. *)
Definition emit (this : Logger) (record : loc) : M unit :=
  seen <- read_arr (logarr this) ;; notify record seen.

(** ** [Colorize] *)

Module Colorize.
Section with_chalk.
Context `{!chalk.t}.

Definition coloredType (ty : LogType) : string → string :=
  match ty with
  | Default => λ t, t
  | Info => chalk.blue
  | Warn => chalk.yellowBright
  | Error => chalk.red
  end.

Definition timestamp : string → string := chalk.yellow.

Definition from : string → string := chalk.cyan.
End with_chalk.
End Colorize.

(** ** Truthiness *)

(** [x || d] on an optional number: [undefined] and [0] are falsy. *)
Definition Number_or (x : option Z) (d : Z) : Z :=
  match x with
  | Some n => if decide (n = 0) then d else n
  | None => d
  end.

(** A condition on an optional boolean. *)
Definition Boolean_truthy (x : option bool) : bool :=
  match x with
  | Some b => b
  | None => false
  end.

(** A condition on an optional string: [undefined] and [""] are falsy. *)
Definition String_truthy (x : option string) : option string :=
  match x with
  | Some EmptyString => None
  | Some s => Some s
  | None => None
  end.

(** ** [class Logger] *)

Module Logger.
Section with_chalk.
Context `{!chalk.t}.

(** [new Logger(options)]: [super()], then the initialiser of [logarr]. *)
Definition new (options : option LoggerOptions) : M Logger :=
  EventEmitter_new ;;
  a <- alloc (OArr []) ;;
  ret (mkLogger options a).

(** [this.options?.colored] as a condition *)
Definition options_colored (this : Logger) : bool :=
  Boolean_truthy (options this ≫= colored).

(** [this.options?.maxStackSize || 500] *)
Definition options_maxStackSize (this : Logger) : Z :=
  Number_or (options this ≫= maxStackSize) 500.

Definition prepareLog (this : Logger) (log : PrepareLog.t) (date : Date)
  : LogObject :=
  let timestamp :=
    toLocaleString date +:+ "." +:+ Number_toString (getMilliseconds date) in
  let logBuilder := "" in
  let type := toUpperCase (LogType_name (PrepareLog.type log)) in
  let logBuilder :=
    if decide (PrepareLog.type log ≠ Default) then
      let logBuilder :=
        if options_colored this
        then logBuilder +:+ Colorize.coloredType (PrepareLog.type log) type
        else logBuilder +:+ type in
      logBuilder +:+ ": "
    else logBuilder in
  let logBuilder :=
    if options_colored this
    then logBuilder +:+ ("[" +:+ Colorize.timestamp timestamp +:+ "]")
    else logBuilder +:+ ("[" +:+ timestamp +:+ "]") in
  let logBuilder :=
    match String_truthy (PrepareLog.from log) with
    | Some from =>
        let logBuilder := logBuilder +:+ " " in
        if options_colored this
        then logBuilder +:+ ("(" +:+ Colorize.from from +:+ "): ")
        else logBuilder +:+ ("(" +:+ from +:+ "): ")
    | None => logBuilder +:+ ": "
    end in
  let logBuilder := logBuilder +:+ PrepareLog.msg log in
  mkLogObject timestamp (PrepareLog.msg log) (PrepareLog.from log)
              logBuilder (PrepareLog.type log).

Definition createLog (this : Logger) (type : LogType)
    (msg : string) (from : option string) (now : Date) : M unit :=
  let preLog := PrepareLog.mk msg from type in
  readyLog <- alloc (ORec (prepareLog this preLog now)) ;;
  len <- Array_length (logarr this) ;;
  (if Z.of_nat len >? options_maxStackSize this
   then Array_shift (logarr this) ;; ret tt
   else ret tt) ;;
  Array_push (logarr this) readyLog ;;
  r <- read_rec readyLog ;;
  console_log (log r) ;;
  emit this readyLog.

Definition error (this : Logger) msg from now : M unit :=
  createLog this Error msg from now.

Definition info (this : Logger) msg from now : M unit :=
  createLog this Info msg from now.

Definition warn (this : Logger) msg from now : M unit :=
  createLog this Warn msg from now.

Definition generate (this : Logger) : M string :=
  xs <- read_arr (logarr this) ;;
  logs <- foldM (λ logs l, r <- read_rec l ;; ret (logs ++ [log r]))
                [] xs ;;
  ret (join newline logs).

Definition generate_array (this : Logger) : M loc :=
  ret (logarr this).

Inductive snapshot_result : Type :=
  | SnapString (s : string)
  | SnapArray (a : loc).

Definition snapshot (this : Logger) (format : option bool)
  : M snapshot_result :=
  if Boolean_truthy format then
    xs <- read_arr (logarr this) ;;
    logs <- mapM_ (λ l, r <- read_rec l ;; ret (log r)) xs ;;
    ret (SnapString (join newline logs))
  else
    a <- Array_spread (logarr this) ;; ret (SnapArray a).

Definition log (this : Logger) msg from now : M unit :=
  createLog this Default msg from now.
End with_chalk.
End Logger.

(** ** Reading the store *)

Definition elems (σ : list obj) (a : loc) : option (list loc) :=
  match σ !! a with
  | Some (OArr xs) => Some xs
  | _ => None
  end.

Definition deref (σ : list obj) (l : loc) : option LogObject :=
  match σ !! l with
  | Some (ORec r) => Some r
  | _ => None
  end.

(** The records an array holds, in order. *)
Definition records (σ : list obj) (a : loc) : option (list LogObject) :=
  xs ← elems σ a; mapM (deref σ) xs.

(** The buffer of a logger: the records [logarr] holds. *)
Definition buffer (this : Logger) (w : World) : option (list LogObject) :=
  records (store w) (logarr this).

(** ** The eviction test *)

(** The test and the shift of [createLog], on the sequence an array holds:
    the oldest element goes when the array is longer than [limit], then the
    new element is appended. *)
Definition insert_at {A} (limit : Z) (xs : list A) (x : A) : list A :=
  (if Z.of_nat (length xs) >? limit then tail xs else xs) ++ [x].

(** ** Sequences of calls *)

(** A record-creating call: the method is chosen by [c_type]. *)
Record call : Type := mkCall {
  c_type : LogType;
  c_msg : string;
  c_from : option string;
  c_now : Date
}.

Section programs.
Context `{!chalk.t}.

Definition perform (this : Logger) (c : call) : M unit :=
  match c_type c with
  | Default => Logger.log this (c_msg c) (c_from c) (c_now c)
  | Info => Logger.info this (c_msg c) (c_from c) (c_now c)
  | Warn => Logger.warn this (c_msg c) (c_from c) (c_now c)
  | Error => Logger.error this (c_msg c) (c_from c) (c_now c)
  end.

Fixpoint perform_all (this : Logger) (cs : list call) : M unit :=
  match cs with
  | [] => ret tt
  | c :: cs' => perform this c ;; perform_all this cs'
  end.

(** The record a call creates. *)
Definition record_of (this : Logger) (c : call) : LogObject :=
  Logger.prepareLog this (PrepareLog.mk (c_msg c) (c_from c) (c_type c))
                    (c_now c).

(** What one insertion of [createLog] does to the sequence the array
    holds. *)
Definition inserted {A} (this : Logger) (xs : list A) (x : A) : list A :=
  insert_at (Logger.options_maxStackSize this) xs x.

(** The world a new logger leaves behind. *)
Definition born (w : World) : World :=
  {| store := store w ++ [OArr []]; console := console w;
     listeners := []; delivered := delivered w |}.

(** The world a record-creating call leaves behind. *)
Definition after_create (this : Logger) (r : LogObject) (xs : list loc)
    (w : World) : World :=
  let l := length (store w) in
  let out := console w ++ [log r] in
  {| store := <[logarr this := OArr (inserted this xs l)]>
                (store w ++ [ORec r]);
     console := out;
     listeners := listeners w;
     delivered := delivered w ++
       map (λ s, mkNotification s l (inserted this xs l) out)
           (listeners w) |}.

(** The public operations, for programs that mix them. *)
Inductive op : Type :=
  | Create (c : call)
  | Snapshot (format : option bool)
  | Generate
  | GenerateArray
  | Subscribe (s : nat).

Inductive result : Type :=
  | RUnit
  | RString (s : string)
  | RArray (a : loc).

Definition exec (this : Logger) (o : op) : M result :=
  match o with
  | Create c => perform this c ;; ret RUnit
  | Snapshot format =>
      r <- Logger.snapshot this format ;;
      ret (match r with
           | Logger.SnapString s => RString s
           | Logger.SnapArray a => RArray a
           end)
  | Generate => s <- Logger.generate this ;; ret (RString s)
  | GenerateArray => a <- Logger.generate_array this ;; ret (RArray a)
  | Subscribe s => on s ;; ret RUnit
  end.

(** A caller that holds the array [a]: it calls operations of the logger
    and, when [mutating] is set, overwrites the contents of [a] in
    between. *)
Inductive step : Type :=
  | Do (o : op)
  | Mutate (vs : list loc).

Fixpoint run (this : Logger) (a : loc) (mutating : bool) (ps : list step)
  : M (list result) :=
  match ps with
  | [] => ret []
  | Do o :: ps' =>
      r <- exec this o ;; rs <- run this a mutating ps' ;; ret (r :: rs)
  | Mutate vs :: ps' =>
      (if mutating then write_arr a vs else ret tt) ;;
      run this a mutating ps'
  end.

(** A sequence of operations of the logger. *)
Fixpoint exec_all (this : Logger) (os : list op) : M (list result) :=
  match os with
  | [] => ret []
  | o :: os' => r <- exec this o ;; rs <- exec_all this os' ;; ret (r :: rs)
  end.

(** A logger is constructed and called. *)
Definition session (o : option LoggerOptions) (cs : list call) : M Logger :=
  this <- Logger.new o ;; perform_all this cs ;; ret this.
End programs.

(** Two worlds that differ at most in what the array [a] holds. *)
Definition same_except (a : loc) (w1 w2 : World) : Prop :=
  length (store w1) = length (store w2) ∧
  (∀ l, l ≠ a → store w1 !! l = store w2 !! l) ∧
  is_Some (elems (store w1) a) ∧ is_Some (elems (store w2) a) ∧
  console w1 = console w2 ∧
  listeners w1 = listeners w2 ∧
  delivered w1 = delivered w2.

(** A caller overwrites the contents of an array it holds. *)
Definition overwrite (a : loc) (vs : list loc) (w : World) : World :=
  set_store w (<[a := OArr vs]> (store w)).

(** ** The formatter of the specification *)

(** The construction rule of the specification (section 4.2), written after
    its four steps; [optionalSource] is [None] when no source is present. *)
Module Spec.
Section with_chalk.
Context `{!chalk.t}.

Definition severity (ty : LogType) (coloredFlag : bool) : string :=
  match ty with
  | Default => ""
  | Info => (if coloredFlag then chalk.blue "INFO" else "INFO") +:+ ": "
  | Warn =>
      (if coloredFlag then chalk.yellowBright "WARN" else "WARN") +:+ ": "
  | Error => (if coloredFlag then chalk.red "ERROR" else "ERROR") +:+ ": "
  end.

Definition bracket (timestampString : string) (coloredFlag : bool)
  : string :=
  "[" +:+ (if coloredFlag then chalk.yellow timestampString
           else timestampString) +:+ "]".

Definition source (optionalSource : option string) (coloredFlag : bool)
  : string :=
  match optionalSource with
  | Some s => " (" +:+ (if coloredFlag then chalk.cyan s else s) +:+ "): "
  | None => ": "
  end.

Definition format (ty : LogType) (timestampString message : string)
    (optionalSource : option string) (coloredFlag : bool) : string :=
  severity ty coloredFlag +:+ bracket timestampString coloredFlag +:+
  source optionalSource coloredFlag +:+ message.
End with_chalk.
End Spec.

(** ** Concrete inputs *)

Module Scenario.
#[local] Existing Instance chalk.ansi.

Definition empty : World := mkWorld [] [] [] [].

Definition clock (ms : N) : Date := mkDate "08.03.2024, 21:07:21" ms.

(** [{ maxStackSize: n, colored: false }] *)
Definition plain (n : Z) : option LoggerOptions :=
  Some (mkLoggerOptions (Some n) (Some false)).

(** [log("a"); log("b")] *)
Definition ab : list call :=
  [mkCall Default "a" None (clock 1); mkCall Default "b" None (clock 2)].

(** [log("a"); warn("b", "X"); error("c")] *)
Definition abc : list call :=
  [mkCall Default "a" None (clock 1);
   mkCall Warn "b" (Some "X") (clock 2);
   mkCall Error "c" None (clock 3)].

(** The buffer at the end of a session that starts in the empty world. *)
Definition final_buffer (o : option LoggerOptions) (cs : list call)
  : option (list LogObject) :=
  match session o cs empty with
  | Some (this, w) => buffer this w
  | None => None
  end.

(** A logger with limit 5 that was called with [ab] and has subscriber
    [7]. *)
Definition logger : Logger := mkLogger (plain 5) 0%nat.

Definition world : World :=
  Eval vm_compute in
    match (this <- Logger.new (plain 5) ;; on 7%nat ;; perform_all this ab ;;
           ret tt) empty with
    | Some (_, w) => w
    | None => empty
    end.

Definition held : list LogObject :=
  Eval vm_compute in map (record_of logger) ab.

(** The caller empties the array it got from [generate_array], and takes
    a formatted snapshot. *)
Definition empties_generate_array : M Logger.snapshot_result :=
  a <- Logger.generate_array logger ;;
  write_arr a [] ;;
  Logger.snapshot logger (Some true).

(** The caller empties the array it got from [snapshot(false)], and
    takes a formatted snapshot. *)
Definition empties_snapshot : M Logger.snapshot_result :=
  r <- Logger.snapshot logger (Some false) ;;
  match r with
  | Logger.SnapArray a => write_arr a []
  | Logger.SnapString _ => throw
  end ;;
  Logger.snapshot logger (Some true).

(** The caller assigns to the [log] field of the first record of the array
    it got from [snapshot(false)], and takes a formatted snapshot. *)
Definition edits_record_of_snapshot : M Logger.snapshot_result :=
  r <- Logger.snapshot logger (Some false) ;;
  match r with
  | Logger.SnapArray a =>
      xs <- read_arr a ;;
      match xs with
      | l :: _ =>
          o <- read_rec l ;;
          write_rec l (mkLogObject (timestamp o) (msg o) (from o) "edited"
                         (type o))
      | [] => throw
      end
  | Logger.SnapString _ => throw
  end ;;
  Logger.snapshot logger (Some true).
End Scenario.

(** * Facts about the store *)

Section store_facts.
Implicit Types (σ : list obj) (a l : loc) (xs : list loc) (w : World).

Lemma elems_Some σ a xs : elems σ a = Some xs ↔ σ !! a = Some (OArr xs).
Proof.
  unfold elems. destruct (σ !! a) as [[]|]; split; intros; simplify_eq; done.
Qed.

Lemma deref_Some σ l r : deref σ l = Some r ↔ σ !! l = Some (ORec r).
Proof.
  unfold deref. destruct (σ !! l) as [[]|]; split; intros; simplify_eq; done.
Qed.

Lemma elems_lt σ a xs : elems σ a = Some xs → (a < length σ)%nat.
Proof. intros H%elems_Some. by eapply lookup_lt_Some. Qed.

Lemma read_arr_elems a xs w :
  elems (store w) a = Some xs → read_arr a w = Some (xs, w).
Proof. intros H%elems_Some. unfold read_arr. by rewrite H. Qed.

Lemma write_arr_elems a xs ys w :
  elems (store w) a = Some xs →
  write_arr a ys w = Some (tt, set_store w (<[a := OArr ys]> (store w))).
Proof. intros H%elems_Some. unfold write_arr. by rewrite H. Qed.

Lemma read_rec_deref l r w :
  deref (store w) l = Some r → read_rec l w = Some (r, w).
Proof. intros H%deref_Some. unfold read_rec. by rewrite H. Qed.

(** Allocation keeps what is there. *)
Lemma elems_alloc σ o a xs :
  elems σ a = Some xs → elems (σ ++ [o]) a = Some xs.
Proof.
  rewrite !elems_Some. intros H. by apply lookup_app_l_Some.
Qed.

Lemma deref_alloc σ o l r :
  deref σ l = Some r → deref (σ ++ [o]) l = Some r.
Proof.
  rewrite !deref_Some. intros H. by apply lookup_app_l_Some.
Qed.

Lemma deref_new σ r : deref (σ ++ [ORec r]) (length σ) = Some r.
Proof.
  apply deref_Some. rewrite lookup_app_r by lia.
  by rewrite Nat.sub_diag.
Qed.

Lemma elems_new σ xs : elems (σ ++ [OArr xs]) (length σ) = Some xs.
Proof.
  apply elems_Some. rewrite lookup_app_r by lia.
  by rewrite Nat.sub_diag.
Qed.

(** Writing an array changes that array and nothing else. *)
Lemma elems_write_eq σ a xs ys :
  elems σ a = Some xs → elems (<[a := OArr ys]> σ) a = Some ys.
Proof.
  intros H. apply elems_Some, list_lookup_insert_eq. by eapply elems_lt.
Qed.

Lemma elems_write_ne σ a b ys :
  a ≠ b → elems (<[a := OArr ys]> σ) b = elems σ b.
Proof. intros H. unfold elems. by rewrite list_lookup_insert_ne. Qed.

Lemma deref_write σ a xs ys l :
  elems σ a = Some xs → deref (<[a := OArr ys]> σ) l = deref σ l.
Proof.
  intros Ha. unfold deref. destruct (decide (a = l)) as [<-|Hne].
  - rewrite list_lookup_insert_eq by (by eapply elems_lt).
    apply elems_Some in Ha. by rewrite Ha.
  - by rewrite list_lookup_insert_ne.
Qed.

Lemma mapM_deref_ext σ σ' xs :
  (∀ l, l ∈ xs → deref σ' l = deref σ l) →
  mapM (deref σ') xs = mapM (deref σ) xs.
Proof.
  induction xs as [|x xs IH]; intros Hext; [done|].
  simpl. rewrite Hext by left. rewrite IH; [done|].
  intros l Hl. apply Hext. by right.
Qed.

Lemma mapM_deref_alloc σ o xs rs :
  mapM (deref σ) xs = Some rs → mapM (deref (σ ++ [o])) xs = Some rs.
Proof.
  rewrite !mapM_Some. apply Forall2_impl. intros l r. apply deref_alloc.
Qed.

Lemma mapM_deref_snoc σ xs rs l r :
  mapM (deref σ) xs = Some rs → deref σ l = Some r →
  mapM (deref σ) (xs ++ [l]) = Some (rs ++ [r]).
Proof.
  rewrite !mapM_Some. intros Hxs Hl. apply Forall2_app; [done|].
  by constructor.
Qed.

Lemma mapM_deref_tail σ xs rs :
  mapM (deref σ) xs = Some rs → mapM (deref σ) (tail xs) = Some (tail rs).
Proof.
  rewrite !mapM_Some. intros H. destruct H; simpl; [constructor|done].
Qed.

Lemma mapM_deref_length σ xs rs :
  mapM (deref σ) xs = Some rs → length xs = length rs.
Proof. rewrite mapM_Some. apply Forall2_length. Qed.

Lemma records_Some σ a rs :
  records σ a = Some rs ↔
  ∃ xs, elems σ a = Some xs ∧ mapM (deref σ) xs = Some rs.
Proof.
  unfold records. destruct (elems σ a) as [xs|]; simpl.
  - split; [eauto|]. by intros (? & [= <-] & ?).
  - split; [done|]. by intros (? & ? & ?).
Qed.

Lemma records_write σ a xs ys rs :
  elems σ a = Some xs → mapM (deref σ) ys = Some rs →
  records (<[a := OArr ys]> σ) a = Some rs.
Proof.
  intros Ha Hys. apply records_Some. exists ys. split.
  - by eapply elems_write_eq.
  - rewrite <- Hys. apply mapM_deref_ext. intros l _. by eapply deref_write.
Qed.

Lemma records_alloc σ o a rs :
  records σ a = Some rs → records (σ ++ [o]) a = Some rs.
Proof.
  rewrite !records_Some. intros (xs & Ha & Hxs). exists xs.
  split; [by apply elems_alloc | by apply mapM_deref_alloc].
Qed.

(** Running the primitives. *)
Lemma bind_run {A B} (m : M A) (k : A → M B) w (x : A) w' :
  m w = Some (x, w') → bind m k w = k x w'.
Proof. intros Hm. unfold bind. by rewrite Hm. Qed.

Lemma bind_then {A B} (m : M A) (k : A → M B) w (x : A) w' res :
  m w = Some (x, w') → k x w' = res → bind m k w = res.
Proof. intros Hm <-. by apply bind_run. Qed.

Lemma Array_length_run a xs w :
  elems (store w) a = Some xs → Array_length a w = Some (length xs, w).
Proof.
  intros Ha. unfold Array_length.
  by rewrite (bind_run _ _ _ _ _ (read_arr_elems _ _ _ Ha)).
Qed.

Lemma Array_shift_run a xs w :
  elems (store w) a = Some xs →
  Array_shift a w =
    Some (head xs, set_store w (<[a := OArr (tail xs)]> (store w))).
Proof.
  intros Ha. unfold Array_shift.
  rewrite (bind_run _ _ _ _ _ (read_arr_elems _ _ _ Ha)).
  by rewrite (bind_run _ _ _ _ _ (write_arr_elems _ _ (tail xs) _ Ha)).
Qed.

Lemma Array_push_run a x xs w :
  elems (store w) a = Some xs →
  Array_push a x w =
    Some (tt, set_store w (<[a := OArr (xs ++ [x])]> (store w))).
Proof.
  intros Ha. unfold Array_push.
  rewrite (bind_run _ _ _ _ _ (read_arr_elems _ _ _ Ha)).
  by rewrite (write_arr_elems _ _ (xs ++ [x]) _ Ha).
Qed.

Lemma Array_spread_run a xs w :
  elems (store w) a = Some xs →
  Array_spread a w =
    Some (length (store w), set_store w (store w ++ [OArr xs])).
Proof.
  intros Ha. unfold Array_spread.
  by rewrite (bind_run _ _ _ _ _ (read_arr_elems _ _ _ Ha)).
Qed.

Lemma emit_run (this : Logger) l xs w :
  elems (store w) (logarr this) = Some xs → emit this l w = notify l xs w.
Proof.
  intros Ha. unfold emit.
  by rewrite (bind_run _ _ _ _ _ (read_arr_elems _ _ _ Ha)).
Qed.
End store_facts.

(** * Facts about the methods *)

Section logger_facts.
Context `{!chalk.t}.
Implicit Types (this : Logger) (w : World) (c : call) (cs : list call).

(** One call, step by step: the record is allocated, the oldest
    reference is shifted out when the array is longer than the limit,
    the new reference is pushed, the line is printed and the subscribers
    are called. *)
Lemma createLog_run this ty m f now w xs :
  elems (store w) (logarr this) = Some xs →
  Logger.createLog this ty m f now w =
    Some (tt, after_create this
                (Logger.prepareLog this (PrepareLog.mk m f ty) now) xs w).
Proof.
  intros Ha. unfold Logger.createLog, after_create, inserted, insert_at.
  set (r := Logger.prepareLog _ _ _). set (a := logarr this) in *.
  set (l := length (store w)). set (σ := store w ++ [ORec r]).
  assert (elems σ a = Some xs) as Ha1 by by apply elems_alloc.
  assert (deref σ l = Some r) as Hl by apply deref_new.
  eapply bind_then; [reflexivity|].
  eapply bind_then; [by apply Array_length_run|].
  destruct (Z.of_nat (length xs) >? Logger.options_maxStackSize this).
  - eapply bind_then.
    { eapply bind_then; [by apply Array_shift_run|reflexivity]. }
    assert (elems (<[a := OArr (tail xs)]> σ) a = Some (tail xs)) as Ha2
      by by eapply elems_write_eq.
    eapply bind_then; [by apply Array_push_run|].
    eapply bind_then.
    { apply read_rec_deref. cbn [store set_store].
      erewrite !deref_write by done. exact Hl. }
    eapply bind_then; [reflexivity|].
    erewrite emit_run.
    2:{ cbn [store set_store]. by eapply elems_write_eq. }
    cbn [store set_store]. rewrite list_insert_insert_eq. reflexivity.
  - eapply bind_then; [reflexivity|].
    eapply bind_then; [by apply Array_push_run|].
    eapply bind_then.
    { apply read_rec_deref. cbn [store set_store].
      erewrite deref_write by done. exact Hl. }
    eapply bind_then; [reflexivity|].
    erewrite emit_run.
    2:{ cbn [store set_store]. by eapply elems_write_eq. }
    reflexivity.
Qed.

Lemma perform_run this c w xs :
  elems (store w) (logarr this) = Some xs →
  perform this c w = Some (tt, after_create this (record_of this c) xs w).
Proof.
  intros Ha. unfold perform, record_of.
  destruct c as [[] m f now]; cbn [c_type c_msg c_from c_now];
    unfold Logger.log, Logger.info, Logger.warn, Logger.error;
    by apply createLog_run.
Qed.

(** References and the records they denote are inserted alike. *)
Lemma mapM_deref_inserted this σ xs rs l r :
  mapM (deref σ) xs = Some rs → deref σ l = Some r →
  mapM (deref σ) (inserted this xs l) = Some (inserted this rs r).
Proof.
  intros Hxs Hl. unfold inserted, insert_at.
  rewrite (mapM_deref_length _ _ _ Hxs).
  destruct (_ >? _); apply mapM_deref_snoc; try done.
  by apply mapM_deref_tail.
Qed.

Lemma after_create_elems this r xs w :
  elems (store w) (logarr this) = Some xs →
  elems (store (after_create this r xs w)) (logarr this) =
    Some (inserted this xs (length (store w))).
Proof.
  intros Ha. unfold after_create. cbn [store].
  eapply elems_write_eq. by apply elems_alloc.
Qed.

Lemma after_create_deref this r xs w l r' :
  elems (store w) (logarr this) = Some xs →
  deref (store w) l = Some r' →
  deref (store (after_create this r xs w)) l = Some r'.
Proof.
  intros Ha Hl. unfold after_create. cbn [store].
  erewrite deref_write by (by apply elems_alloc). by apply deref_alloc.
Qed.

Lemma after_create_deref_new this r xs w :
  elems (store w) (logarr this) = Some xs →
  deref (store (after_create this r xs w)) (length (store w)) = Some r.
Proof.
  intros Ha. unfold after_create. cbn [store].
  erewrite deref_write by (by apply elems_alloc). apply deref_new.
Qed.

Lemma after_create_buffer this r xs rs w :
  elems (store w) (logarr this) = Some xs →
  mapM (deref (store w)) xs = Some rs →
  buffer this (after_create this r xs w) = Some (inserted this rs r).
Proof.
  intros Ha Hxs. unfold buffer, after_create. cbn [store].
  eapply records_write; [by apply elems_alloc|].
  apply mapM_deref_inserted; [by apply mapM_deref_alloc | apply deref_new].
Qed.

Lemma buffer_Some this w rs :
  buffer this w = Some rs ↔
  ∃ xs, elems (store w) (logarr this) = Some xs ∧
        mapM (deref (store w)) xs = Some rs.
Proof. apply records_Some. Qed.

(** A sequence of calls never fails on a logger whose buffer is intact,
    and inserts the records of the calls one after the other. *)
Lemma perform_all_run this cs w rs :
  buffer this w = Some rs →
  ∃ w', perform_all this cs w = Some (tt, w') ∧
        buffer this w' =
          Some (fold_left (inserted this) (map (record_of this) cs) rs) ∧
        console w' = console w ++ map (λ c, log (record_of this c)) cs ∧
        listeners w' = listeners w ∧
        (∀ l r, deref (store w) l = Some r → deref (store w') l = Some r).
Proof.
  revert w rs. induction cs as [|c cs IH]; intros w rs Hb.
  - exists w. simpl. rewrite app_nil_r. by repeat split.
  - apply buffer_Some in Hb as (xs & Ha & Hxs).
    pose proof (after_create_buffer this (record_of this c) _ _ _ Ha Hxs)
      as Hb'.
    destruct (IH _ _ Hb') as (w' & Hrun & Hbuf & Hout & Hls & Hder).
    exists w'. split; [|split; [|split; [|split]]].
    + simpl. eapply bind_then; [by eapply perform_run|done].
    + done.
    + rewrite Hout. unfold after_create. cbn [console map].
      by rewrite <- app_assoc.
    + by rewrite Hls.
    + intros l r Hl. apply Hder. by apply after_create_deref.
Qed.

Lemma new_run (o : option LoggerOptions) w :
  Logger.new o w = Some (mkLogger o (length (store w)), born w).
Proof. reflexivity. Qed.

Lemma new_buffer (o : option LoggerOptions) w :
  buffer (mkLogger o (length (store w))) (born w) = Some [].
Proof.
  unfold buffer, records, born. cbn [store logarr].
  by rewrite elems_new.
Qed.
End logger_facts.

(** * The sequence the buffer holds *)

Section retention.
Context {A : Type}.
Implicit Types (xs ys : list A) (limit : Z).

(** With a limit that is not negative the array settles at one element
    more than the limit: the comparison is made before the push, and it
    is strict. *)
Lemma fold_insert_at limit xs ys :
  0 ≤ limit →
  (length xs ≤ Z.to_nat limit + 1)%nat →
  fold_left (insert_at limit) ys xs =
    drop (length xs + length ys - (Z.to_nat limit + 1)) (xs ++ ys).
Proof.
  intros Hlimit. revert xs. induction ys as [|y ys IH]; intros xs Hlen.
  - simpl. rewrite app_nil_r.
    replace (length xs + 0 - _)%nat with 0%nat by lia. done.
  - simpl. unfold insert_at at 2.
    destruct (Z.gtb_spec (Z.of_nat (length xs)) limit) as [Hgt|Hle].
    + destruct xs as [|x xs]; [simpl in Hgt; lia|].
      simpl in Hlen, Hgt. rewrite IH.
      2:{ rewrite length_app. simpl in *. lia. }
      rewrite length_app. simpl.
      replace (length xs + 1 + length ys - (Z.to_nat limit + 1))%nat
        with (length ys) by lia.
      replace (S (length xs + S (length ys)) - (Z.to_nat limit + 1))%nat
        with (S (length ys)) by lia.
      simpl. by rewrite <- app_assoc.
    + rewrite IH.
      2:{ rewrite length_app. simpl. lia. }
      rewrite length_app. simpl. rewrite <- app_assoc. simpl.
      f_equal. lia.
Qed.

(** With a negative limit every insertion shifts first. *)
Lemma fold_insert_at_negative limit xs ys y :
  limit < 0 → (length xs ≤ 1)%nat →
  fold_left (insert_at limit) (ys ++ [y]) xs = [y].
Proof.
  intros Hlimit. revert xs. induction ys as [|z ys IH]; intros xs Hlen.
  - simpl. unfold insert_at.
    destruct (Z.gtb_spec (Z.of_nat (length xs)) limit); [|lia].
    by destruct xs as [|? [|]]; simpl in *; try lia.
  - simpl. apply IH. unfold insert_at.
    destruct (Z.gtb_spec (Z.of_nat (length xs)) limit); [|lia].
    destruct xs as [|? [|]]; simpl in *; lia.
Qed.
End retention.

Section reading_facts.
Context `{!chalk.t}.
Implicit Types (this : Logger) (w : World) (xs : list loc)
  (rs : list LogObject).

Lemma map_read_log xs rs w :
  mapM (deref (store w)) xs = Some rs →
  mapM_ (λ l, r <- read_rec l ;; ret (log r)) xs w = Some (map log rs, w).
Proof.
  rewrite mapM_Some. induction 1 as [|l r xs rs Hl _ IH]; [done|].
  simpl. eapply bind_then.
  { eapply bind_then; [by apply read_rec_deref|reflexivity]. }
  eapply bind_then; [exact IH|reflexivity].
Qed.

Lemma forEach_push_log xs rs acc w :
  mapM (deref (store w)) xs = Some rs →
  foldM (λ logs l, r <- read_rec l ;; ret (logs ++ [log r])) acc xs w =
    Some (acc ++ map log rs, w).
Proof.
  rewrite mapM_Some. intros Hxs. revert acc.
  induction Hxs as [|l r xs rs Hl _ IH]; intros acc.
  - simpl. by rewrite app_nil_r.
  - simpl. eapply bind_then.
    { eapply bind_then; [by apply read_rec_deref|reflexivity]. }
    rewrite IH. by rewrite <- app_assoc.
Qed.

Lemma snapshot_formatted_run this w rs :
  buffer this w = Some rs →
  Logger.snapshot this (Some true) w =
    Some (Logger.SnapString (join newline (map log rs)), w).
Proof.
  intros (xs & Ha & Hxs)%buffer_Some. unfold Logger.snapshot. simpl.
  eapply bind_then; [by apply read_arr_elems|].
  eapply bind_then; [by apply map_read_log|reflexivity].
Qed.

Lemma generate_run this w rs :
  buffer this w = Some rs →
  Logger.generate this w = Some (join newline (map log rs), w).
Proof.
  intros (xs & Ha & Hxs)%buffer_Some. unfold Logger.generate.
  eapply bind_then; [by apply read_arr_elems|].
  eapply bind_then; [by apply forEach_push_log|reflexivity].
Qed.

Lemma snapshot_copy_run this format w xs :
  Boolean_truthy format = false →
  elems (store w) (logarr this) = Some xs →
  Logger.snapshot this format w =
    Some (Logger.SnapArray (length (store w)),
          set_store w (store w ++ [OArr xs])).
Proof.
  intros Hf Ha. unfold Logger.snapshot. rewrite Hf.
  eapply bind_then; [by apply Array_spread_run|reflexivity].
Qed.

(** Allocating leaves the buffer as it is. *)
Lemma buffer_alloc this w o rs :
  buffer this w = Some rs →
  buffer this (set_store w (store w ++ [o])) = Some rs.
Proof. apply records_alloc. Qed.
End reading_facts.

(** * Worlds that differ in one array *)

Section frame_facts.
Context `{!chalk.t}.
Implicit Types (this : Logger) (w : World) (a l : loc) (xs : list loc)
  (rs : list LogObject).

Lemma same_except_elems a l w1 w2 :
  same_except a w1 w2 → l ≠ a →
  elems (store w1) l = elems (store w2) l.
Proof. intros (_ & Hl & _) Hne. unfold elems. by rewrite Hl. Qed.

Lemma same_except_deref a l w1 w2 :
  same_except a w1 w2 → deref (store w1) l = deref (store w2) l.
Proof.
  intros (_ & Hl & [xs1 H1] & [xs2 H2] & _). unfold deref.
  destruct (decide (l = a)) as [->|Hne]; [|by rewrite Hl].
  apply elems_Some in H1, H2. by rewrite H1, H2.
Qed.

Lemma same_except_buffer this a w1 w2 :
  a ≠ logarr this → same_except a w1 w2 → buffer this w1 = buffer this w2.
Proof.
  intros Hne Hsame. unfold buffer, records.
  rewrite <- (same_except_elems a _ w1 w2) by done.
  destruct (elems (store w1) (logarr this)) as [xs|]; [simpl|done].
  apply mapM_deref_ext. intros l _. by eapply same_except_deref.
Qed.

Lemma same_except_alloc a o w1 w2 :
  same_except a w1 w2 →
  same_except a (set_store w1 (store w1 ++ [o]))
                (set_store w2 (store w2 ++ [o])).
Proof.
  intros (Hlen & Hl & [xs1 H1] & [xs2 H2] & Hout & Hls & Hdel).
  unfold same_except. cbn [store set_store console listeners delivered].
  rewrite !length_app, Hlen. repeat split; eauto using elems_alloc.
  intros l Hne. rewrite !lookup_app, Hl, Hlen by done. done.
Qed.

Lemma same_except_write a b ys w1 w2 :
  b ≠ a → same_except a w1 w2 →
  same_except a (set_store w1 (<[b := OArr ys]> (store w1)))
                (set_store w2 (<[b := OArr ys]> (store w2))).
Proof.
  intros Hne (Hlen & Hl & [xs1 H1] & [xs2 H2] & Hout & Hls & Hdel).
  unfold same_except. cbn [store set_store console listeners delivered].
  rewrite !length_insert. repeat split; try done.
  - intros l Hla. rewrite !list_lookup_insert, Hlen, Hl by done. done.
  - exists xs1. by rewrite elems_write_ne.
  - exists xs2. by rewrite elems_write_ne.
Qed.

Lemma same_except_after_create this a r xs w1 w2 :
  a ≠ logarr this → same_except a w1 w2 →
  same_except a (after_create this r xs w1) (after_create this r xs w2).
Proof.
  intros Hne Hsame.
  pose proof (same_except_write a (logarr this)
    (inserted this xs (length (store w1))) _ _ (not_eq_sym Hne)
    (same_except_alloc a (ORec r) _ _ Hsame)) as Hw.
  destruct Hsame as (Hlen & _ & _ & _ & Hout & Hls & Hdel).
  destruct Hw as (Hlen' & Hl' & Ha1 & Ha2 & _).
  cbn [store set_store] in *.
  unfold same_except, after_create.
  cbn [store console listeners delivered].
  rewrite <- Hlen, <- Hout, <- Hls, <- Hdel. by repeat split.
Qed.

(** Every operation of the logger runs alike in two such worlds, as long
    as the array is not the logger's own. *)
Lemma exec_same_except this a o w1 w2 rs :
  a ≠ logarr this → same_except a w1 w2 → buffer this w1 = Some rs →
  ∃ r w1' w2' rs',
    exec this o w1 = Some (r, w1') ∧ exec this o w2 = Some (r, w2') ∧
    same_except a w1' w2' ∧ buffer this w1' = Some rs'.
Proof.
  intros Hne Hsame Hb1.
  assert (buffer this w2 = Some rs) as Hb2
    by by rewrite <- (same_except_buffer this a w1 w2).
  pose proof Hb1 as (xs & Ha1 & Hxs1)%buffer_Some.
  assert (elems (store w2) (logarr this) = Some xs) as Ha2
    by by rewrite <- (same_except_elems a _ w1 w2).
  pose proof Hsame as (Hlen & _ & _ & _ & Hout & Hls & Hdel).
  destruct o as [c|format| | |s]; cbn [exec].
  - eexists RUnit, _, _, _. split; [|split; [|split]].
    + eapply bind_then; [by eapply perform_run|reflexivity].
    + eapply bind_then; [by eapply perform_run|reflexivity].
    + by apply same_except_after_create.
    + by eapply after_create_buffer.
  - destruct (Boolean_truthy format) eqn:Hf.
    + destruct format as [[]|]; try done.
      eexists (RString _), w1, w2, rs. split; [|split; [|split]]; try done.
      * eapply bind_then; [by apply snapshot_formatted_run|reflexivity].
      * eapply bind_then; [by apply snapshot_formatted_run|reflexivity].
    + eexists (RArray _), _, _, rs. split; [|split; [|split]].
      * eapply bind_then; [by eapply snapshot_copy_run|reflexivity].
      * eapply bind_then; [by eapply snapshot_copy_run|].
        rewrite <- Hlen. reflexivity.
      * by apply same_except_alloc.
      * by apply buffer_alloc.
  - eexists (RString _), w1, w2, rs. split; [|split; [|split]]; try done.
    + eapply bind_then; [by apply generate_run|reflexivity].
    + eapply bind_then; [by apply generate_run|reflexivity].
  - by eexists (RArray _), w1, w2, rs.
  - eexists RUnit, _, _, rs. split; [|split; [|split]].
    + reflexivity.
    + reflexivity.
    + destruct Hsame as (? & ? & ? & ? & ? & ? & ?).
      unfold same_except. cbn [store console listeners delivered].
      repeat split; try done. congruence.
    + done.
Qed.

Lemma same_except_mutate a vs w1 w2 :
  same_except a w1 w2 → same_except a w1 (overwrite a vs w2).
Proof.
  intros (Hlen & Hl & H1 & [xs2 H2] & Hout & Hls & Hdel).
  unfold same_except, overwrite.
  cbn [store set_store console listeners delivered].
  rewrite length_insert. repeat split; try done.
  - intros l Hne. by rewrite list_lookup_insert_ne, Hl.
  - exists vs. by eapply elems_write_eq.
Qed.

Lemma run_same_except this a ps w1 w2 rs :
  a ≠ logarr this → same_except a w1 w2 → buffer this w1 = Some rs →
  ∃ out w1' w2' rs',
    run this a false ps w1 = Some (out, w1') ∧
    run this a true ps w2 = Some (out, w2') ∧
    same_except a w1' w2' ∧ buffer this w1' = Some rs'.
Proof.
  intros Hne. revert w1 w2 rs.
  induction ps as [|[o|vs] ps IH]; intros w1 w2 rs Hsame Hb.
  - by exists [], w1, w2, rs.
  - destruct (exec_same_except this a o w1 w2 rs Hne Hsame Hb)
      as (r & v1 & v2 & rs1 & He1 & He2 & Hsame1 & Hb1).
    destruct (IH v1 v2 rs1 Hsame1 Hb1)
      as (out & v1' & v2' & rs' & Hr1 & Hr2 & Hsame' & Hb').
    exists (r :: out), v1', v2', rs'. split; [|split; [|split]]; try done.
    + simpl. eapply bind_then; [exact He1|].
      eapply bind_then; [exact Hr1|reflexivity].
    + simpl. eapply bind_then; [exact He2|].
      eapply bind_then; [exact Hr2|reflexivity].
  - destruct (IH w1 (overwrite a vs w2) rs
                (same_except_mutate a vs w1 w2 Hsame) Hb)
      as (out & v1' & v2' & rs' & Hr1 & Hr2 & Hsame' & Hb').
    exists out, v1', v2', rs'. split; [exact Hr1|].
    split; [|by split]. cbn [run].
    destruct Hsame as (_ & _ & _ & [xs2 H2] & _).
    eapply bind_then; [by eapply write_arr_elems|exact Hr2].
Qed.
End frame_facts.

(** * The formatter *)

Section formatter_facts.
Context `{!chalk.t}.
Implicit Types (this : Logger) (s t u : string).

Lemma append_assoc s t u : (s +:+ t) +:+ u = s +:+ (t +:+ u).
Proof.
  induction s as [|c s IH]; [done|].
  change (String c ((s +:+ t) +:+ u) = String c (s +:+ (t +:+ u))).
  by rewrite IH.
Qed.

Lemma append_empty_r s : s +:+ "" = s.
Proof.
  induction s as [|c s IH]; [done|].
  change (String c (s +:+ "") = String c s). by rewrite IH.
Qed.

Lemma prefix_append s t : String.prefix s (s +:+ t) = true.
Proof.
  induction s as [|c s IH]; [by destruct t|].
  change (String.prefix (String c s) (String c (s +:+ t)) = true).
  simpl. destruct (ascii_dec c c); [done|congruence].
Qed.

(** The line [prepareLog] builds is the line of the construction rule,
    where a source counts as present when it is a non-empty string. *)
Lemma prepareLog_format this p date :
  log (Logger.prepareLog this p date) =
    Spec.format (PrepareLog.type p)
      (timestamp (Logger.prepareLog this p date)) (PrepareLog.msg p)
      (String_truthy (PrepareLog.from p)) (Logger.options_colored this).
Proof.
  destruct p as [m f ty]. unfold Logger.prepareLog, Spec.format.
  cbn [log timestamp PrepareLog.type PrepareLog.msg PrepareLog.from].
  set (ts := toLocaleString date +:+ _).
  unfold Spec.bracket, Spec.source, Colorize.timestamp, Colorize.from.
  destruct (Logger.options_colored this), ty, (String_truthy f);
    case_decide; try done;
    cbn [Spec.severity Colorize.coloredType]; rewrite ?append_assoc;
    reflexivity.
Qed.
End formatter_facts.

(** * Sessions *)

Section session_facts.
Context `{!chalk.t}.
Implicit Types (this : Logger) (w : World) (c : call) (cs : list call).

(** The methods look at a logger through its limit, its colour flag and
    its array only. *)
Lemma prepareLog_ext this1 this2 p date :
  Logger.options_colored this1 = Logger.options_colored this2 →
  Logger.prepareLog this1 p date = Logger.prepareLog this2 p date.
Proof. intros Hc. unfold Logger.prepareLog. by rewrite Hc. Qed.

Lemma perform_ext this1 this2 c :
  Logger.options_colored this1 = Logger.options_colored this2 →
  Logger.options_maxStackSize this1 = Logger.options_maxStackSize this2 →
  logarr this1 = logarr this2 →
  perform this1 c = perform this2 c.
Proof.
  intros Hc Hm Ha. unfold perform, Logger.log, Logger.info, Logger.warn,
    Logger.error, Logger.createLog, emit.
  destruct (c_type c);
    by rewrite (prepareLog_ext this1 this2) , Hm, Ha by done.
Qed.

Lemma perform_all_ext this1 this2 cs :
  Logger.options_colored this1 = Logger.options_colored this2 →
  Logger.options_maxStackSize this1 = Logger.options_maxStackSize this2 →
  logarr this1 = logarr this2 →
  perform_all this1 cs = perform_all this2 cs.
Proof.
  intros Hc Hm Ha. induction cs as [|c cs IH]; [done|].
  simpl. by rewrite IH, (perform_ext this1 this2).
Qed.

(** A session never fails. *)
Lemma session_run o cs w :
  ∃ w', session o cs w = Some (mkLogger o (length (store w)), w') ∧
        buffer (mkLogger o (length (store w))) w' =
          Some (fold_left (inserted (mkLogger o (length (store w))))
                  (map (record_of (mkLogger o (length (store w)))) cs) []) ∧
        console w' =
          console w ++
          map (λ c, log (record_of (mkLogger o (length (store w))) c)) cs.
Proof.
  set (this := mkLogger o (length (store w))).
  destruct (perform_all_run this cs _ [] (new_buffer o w))
    as (w' & Hrun & Hb & Hout & _).
  exists w'. split; [|by split].
  unfold session. eapply bind_then; [apply new_run|].
  eapply bind_then; [exact Hrun|reflexivity].
Qed.

(** What a session retains when the limit is not negative: the records
    of the most recent calls, one more than the limit at most. *)
Lemma session_retains o cs w :
  let limit := Logger.options_maxStackSize (mkLogger o 0%nat) in
  0 ≤ limit →
  ∃ this w',
    session o cs w = Some (this, w') ∧
    buffer this w' =
      Some (drop (length cs - (Z.to_nat limit + 1))
              (map (record_of this) cs)).
Proof.
  intros limit Hlimit.
  destruct (session_run o cs w) as (w' & Hrun & Hb & _).
  eexists _, w'. split; [exact Hrun|]. rewrite Hb. f_equal.
  change (inserted (mkLogger o (length (store w))))
    with (@insert_at LogObject limit).
  rewrite fold_insert_at by (simpl; lia).
  simpl. by rewrite length_map.
Qed.

Lemma session_retains_length o cs w :
  let limit := Logger.options_maxStackSize (mkLogger o 0%nat) in
  0 ≤ limit →
  ∃ this w' rs,
    session o cs w = Some (this, w') ∧
    buffer this w' = Some rs ∧
    length rs = (length cs `min` (Z.to_nat limit + 1))%nat.
Proof.
  intros limit Hlimit.
  destruct (session_retains o cs w Hlimit) as (this & w' & Hrun & Hb).
  eexists this, w', _. split; [exact Hrun|]. split; [exact Hb|].
  rewrite length_drop, length_map. fold limit. lia.
Qed.

(** With a negative limit a session retains the record of the last call
    only. *)
Lemma session_negative_limit o cs c w :
  Logger.options_maxStackSize (mkLogger o 0%nat) < 0 →
  ∃ this w',
    session o (cs ++ [c]) w = Some (this, w') ∧
    buffer this w' = Some [record_of this c].
Proof.
  intros Hlimit.
  destruct (session_run o (cs ++ [c]) w) as (w' & Hrun & Hb & _).
  eexists _, w'. split; [exact Hrun|]. rewrite Hb. f_equal.
  rewrite map_app. cbn [map].
  apply (fold_insert_at_negative
           (Logger.options_maxStackSize (mkLogger o 0%nat))); [done|].
  simpl. lia.
Qed.

(** Every call is reported to a single subscriber, after the push and
    after the line is printed. *)
Lemma perform_all_notifies this s cs w xs :
  elems (store w) (logarr this) = Some xs →
  listeners w = [s] →
  ∃ w' ns,
    perform_all this cs w = Some (tt, w') ∧
    delivered w' = delivered w ++ ns ∧
    (∀ l r, deref (store w) l = Some r → deref (store w') l = Some r) ∧
    Forall2 (λ c n,
        n_subscriber n = s ∧
        deref (store w') (n_record n) = Some (record_of this c) ∧
        list.last (n_buffer n) = Some (n_record n) ∧
        list.last (n_console n) = Some (log (record_of this c)))
      cs ns.
Proof.
  revert w xs. induction cs as [|c cs IH]; intros w xs Ha Hls.
  - exists w, []. rewrite app_nil_r. repeat split; [done|constructor].
  - set (r := record_of this c). set (w1 := after_create this r xs w).
    destruct (IH w1 _ (after_create_elems this r xs w Ha))
      as (w' & ns & Hrun & Hdel & Hder & Hall); [done|].
    exists w'. eexists (_ :: ns). split; [|split; [|split]].
    + simpl. eapply bind_then; [by eapply perform_run|exact Hrun].
    + rewrite Hdel. unfold w1, after_create. cbn [delivered].
      rewrite Hls. cbn [map]. by rewrite <- app_assoc.
    + intros l r' Hl. apply Hder. by apply after_create_deref.
    + constructor; [|exact Hall]. cbn [n_subscriber n_record n_buffer
        n_console]. split; [done|]. split; [|split].
      * apply Hder. by apply after_create_deref_new.
      * unfold inserted, insert_at. apply last_snoc.
      * apply last_snoc.
Qed.
End session_facts.

(** * The claims of the specification, for every logger *)

Section claims.
Context `{!chalk.t}.
Implicit Types (this : Logger) (w : World) (rs : list LogObject)
  (cs : list call).

(** C3, as amended: on a logger constructed with [maxStackSize] zero
    every sequence of record-creating calls leaves the buffer, and the
    whole world, in the state it has on a logger constructed without
    [maxStackSize], and on one constructed with 500: zero is replaced by
    the default and not rejected. *)
Theorem zero_maxStackSize_is_default (c : option bool) cs w :
  ∃ this0 this_default this500 w' rs,
    session (Some (mkLoggerOptions (Some 0) c)) cs w = Some (this0, w') ∧
    session (Some (mkLoggerOptions None c)) cs w =
      Some (this_default, w') ∧
    session (Some (mkLoggerOptions (Some 500) c)) cs w =
      Some (this500, w') ∧
    Logger.options_maxStackSize this0 = 500 ∧
    logarr this0 = logarr this_default ∧
    logarr this0 = logarr this500 ∧
    buffer this0 w' = Some rs ∧
    buffer this_default w' = Some rs ∧
    buffer this500 w' = Some rs.
Proof.
  set (a := length (store w)).
  set (this0 := mkLogger (Some (mkLoggerOptions (Some 0) c)) a).
  set (this1 := mkLogger (Some (mkLoggerOptions None c)) a).
  set (this2 := mkLogger (Some (mkLoggerOptions (Some 500) c)) a).
  destruct (perform_all_run this0 cs _ [] (new_buffer (options this0) w))
    as (w' & Hrun & Hb & _).
  assert (∀ this, Logger.options_colored this = Logger.options_colored this0
            → Logger.options_maxStackSize this = 500
            → logarr this = a
            → session (options this) cs w = Some (this, w')
              ∧ buffer this w' = buffer this0 w') as Hsame.
  { intros [o a'] Hc Hm Ha. cbn [logarr options] in *. subst a'.
    split; [|done]. unfold session.
    eapply bind_then; [apply new_run|].
    eapply bind_then; [|reflexivity].
    by rewrite (perform_all_ext (mkLogger o a) this0). }
  destruct (Hsame this0) as [Hrun0 _]; [done..|].
  destruct (Hsame this1) as [Hrun1 Hb1]; [done..|].
  destruct (Hsame this2) as [Hrun2 Hb2]; [done..|].
  exists this0, this1, this2, w'. eexists.
  rewrite Hb1, Hb2. by repeat split.
Qed.

(** C4, as amended: a record-creating call never fails on a logger whose
    buffer is intact, whatever the severity, the message and the source,
    and inserts the record it formats.  With an empty message the
    formatted line is the line of the construction rule with nothing
    after the source section.  With an empty-string source the record
    keeps the empty string as its source, and its formatted line is the
    line of the construction rule for an absent source: [": "] follows
    the timestamp bracket. *)
Theorem degenerate_inputs_accepted this ty now w rs :
  buffer this w = Some rs →
  let c := Logger.options_colored this in
  let made m f := Logger.prepareLog this (PrepareLog.mk m f ty) now in
  (∀ m f, ∃ w',
      Logger.createLog this ty m f now w = Some (tt, w') ∧
      buffer this w' = Some (inserted this rs (made m f))) ∧
  (∀ f,
      msg (made "" f) = "" ∧
      log (made "" f) =
        Spec.severity ty c +:+ Spec.bracket (timestamp (made "" f)) c +:+
        Spec.source (String_truthy f) c) ∧
  (∀ m,
      from (made m (Some "")) = Some "" ∧
      log (made m (Some "")) =
        Spec.format ty (timestamp (made m (Some ""))) m None c ∧
      log (made m (Some "")) =
        Spec.severity ty c +:+ Spec.bracket (timestamp (made m None)) c +:+
        ": " +:+ m).
Proof.
  intros Hb c made. split; [|split].
  - intros m f. pose proof Hb as (xs & Ha & Hxs)%buffer_Some.
    eexists. split; [by apply createLog_run|].
    by eapply after_create_buffer.
  - intros f. split; [done|]. unfold made.
    rewrite prepareLog_format. unfold Spec.format.
    cbn [PrepareLog.type PrepareLog.msg PrepareLog.from].
    by rewrite append_empty_r.
  - intros m. split; [done|]. split.
    + unfold made. by rewrite prepareLog_format.
    + unfold made. by rewrite prepareLog_format.
Qed.

(** C5, as amended: [generate()] returns the string [snapshot(true)]
    returns, and neither changes the world.  [generate_array()] returns
    the logger's own array, without changing the world, and
    [snapshot(false)] returns a new array that holds the same references
    in the same order: the two sequences are equal, but only the one of
    [snapshot(false)] is a copy. *)
Theorem deprecated_operations_agree this w rs :
  buffer this w = Some rs →
  (∃ s,
      Logger.generate this w = Some (s, w) ∧
      Logger.snapshot this (Some true) w = Some (Logger.SnapString s, w)) ∧
  (∃ a w' xs,
      Logger.generate_array this w = Some (logarr this, w) ∧
      Logger.snapshot this (Some false) w = Some (Logger.SnapArray a, w') ∧
      a ≠ logarr this ∧
      elems (store w') (logarr this) = Some xs ∧
      elems (store w') a = Some xs ∧
      records (store w') (logarr this) = Some rs ∧
      records (store w') a = Some rs).
Proof.
  intros Hb. pose proof Hb as (xs & Ha & Hxs)%buffer_Some. split.
  - eexists. split; [by apply generate_run|by apply snapshot_formatted_run].
  - eexists _, _, xs. split; [done|].
    split; [by apply snapshot_copy_run|].
    cbn [store set_store]. split; [|split; [|split; [|split]]].
    + apply elems_lt in Ha. lia.
    + by apply elems_alloc.
    + apply elems_new.
    + by apply records_alloc.
    + apply records_Some. exists xs. split; [apply elems_new|].
      by apply mapM_deref_alloc.
Qed.

(** C6: [snapshot] does not modify the state of the logger.  With
    [format = true] the world is left as it is.  With [format = false]
    the only change is one new array, which holds the references the
    buffer holds; the buffer, the console, the subscribers and their
    notifications are as before.  The new array is independent of the
    buffer: a caller that overwrites it, with any contents and any number
    of times, in between any operations of the logger, sees every
    operation return what it returns without the overwriting, and leaves
    the buffer, the console, the subscribers and the notifications as
    they are without it. *)
Theorem snapshot_is_independent this w rs :
  buffer this w = Some rs →
  (∃ s, Logger.snapshot this (Some true) w =
          Some (Logger.SnapString s, w)) ∧
  ∃ a xs w',
    Logger.snapshot this (Some false) w = Some (Logger.SnapArray a, w') ∧
    a ≠ logarr this ∧
    store w !! a = None ∧
    w' = set_store w (store w ++ [OArr xs]) ∧
    elems (store w') a = Some xs ∧
    elems (store w') (logarr this) = Some xs ∧
    buffer this w' = Some rs ∧
    ∀ ps, ∃ out v v',
      run this a false ps w' = Some (out, v) ∧
      run this a true ps w' = Some (out, v') ∧
      same_except a v v' ∧
      buffer this v' = buffer this v ∧
      is_Some (buffer this v).
Proof.
  intros Hb. pose proof Hb as (xs & Ha & Hxs)%buffer_Some. split.
  - eexists. by apply snapshot_formatted_run.
  - set (w' := set_store w (store w ++ [OArr xs])).
    assert (length (store w) ≠ logarr this) as Hne
      by (apply elems_lt in Ha; lia).
    assert (buffer this w' = Some rs) as Hb' by by apply buffer_alloc.
    assert (elems (store w') (length (store w)) = Some xs) as Hnew
      by apply elems_new.
    exists (length (store w)), xs, w'.
    split; [by apply snapshot_copy_run|]. split; [done|].
    split; [by apply lookup_ge_None_2|]. split; [done|].
    split; [done|]. split; [by apply elems_alloc|]. split; [done|].
    intros ps.
    assert (same_except (length (store w)) w' w') as Hrefl.
    { unfold same_except. repeat split; eauto. }
    destruct (run_same_except this _ ps w' w' rs Hne Hrefl Hb')
      as (out & v & v' & rs' & Hr & Hr' & Hsame & Hbv).
    exists out, v, v'. split; [done|]. split; [done|]. split; [done|].
    split; [|by eexists].
    symmetry. by apply (same_except_buffer this (length (store w))).
Qed.

(** C7: the string [snapshot(true)] returns is the join with ["\n"] of
    the formatted lines of the records in the sequence [snapshot(false)]
    returns, in the order of that sequence. *)
Theorem snapshot_formatted_is_join this w rs :
  buffer this w = Some rs →
  ∃ s a w' copied,
    Logger.snapshot this (Some true) w = Some (Logger.SnapString s, w) ∧
    Logger.snapshot this (Some false) w = Some (Logger.SnapArray a, w') ∧
    records (store w') a = Some copied ∧
    s = join newline (map log copied).
Proof.
  intros Hb. pose proof Hb as (xs & Ha & Hxs)%buffer_Some.
  eexists _, _, _, rs. split; [by apply snapshot_formatted_run|].
  split; [by apply snapshot_copy_run|]. split; [|done].
  cbn [store set_store]. apply records_Some. exists xs.
  split; [apply elems_new|by apply mapM_deref_alloc].
Qed.

(** C8: for every message, source, clock reading and colour flag, the
    formatted line of an Info, Warn or Error record starts with the
    upper-case name of the severity, decorated when the flag is set,
    followed by [": "]; the formatted line of a Default record starts
    with ["["], whatever the flag, so in particular when it is not
    set. *)
Theorem formatted_line_starts_with_severity this m f date :
  let c := Logger.options_colored this in
  let line ty :=
    log (Logger.prepareLog this (PrepareLog.mk m f ty) date) in
  String.prefix ((if c then chalk.blue "INFO" else "INFO") +:+ ": ")
    (line Info) = true ∧
  String.prefix
    ((if c then chalk.yellowBright "WARN" else "WARN") +:+ ": ")
    (line Warn) = true ∧
  String.prefix ((if c then chalk.red "ERROR" else "ERROR") +:+ ": ")
    (line Error) = true ∧
  String.prefix "[" (line Default) = true.
Proof.
  intros c line. unfold line. rewrite !prepareLog_format.
  unfold Spec.format. cbn [PrepareLog.type Spec.severity]. fold c.
  repeat split; [apply prefix_append..|].
  unfold Spec.bracket.
  set (inner := (if c then _ else _) +:+ "]").
  set (rest := Spec.source _ _ +:+ _).
  exact (prefix_append "[" (inner +:+ rest)).
Qed.

(** C9: a logger is constructed, one subscriber is registered, and [N]
    record-creating calls are made.  None of this fails, and the
    subscriber has then been called exactly [N] times, once per call and
    in the order of the calls.  Each time it was handed the reference
    that the call pushed, which denotes the record of the call; when it
    was called that reference was the last element of the buffer and the
    formatted line of the record was the last line on the console. *)
Theorem subscriber_notified_per_call (o : option LoggerOptions) (s : nat)
    cs (σ : list obj) (out : list string) :
  ∃ this w',
    (this <- Logger.new o ;; on s ;; perform_all this cs ;; ret this)
      (mkWorld σ out [] []) = Some (this, w') ∧
    length (delivered w') = length cs ∧
    Forall2 (λ c n,
        n_subscriber n = s ∧
        deref (store w') (n_record n) = Some (record_of this c) ∧
        list.last (n_buffer n) = Some (n_record n) ∧
        list.last (n_console n) = Some (log (record_of this c)))
      cs (delivered w').
Proof.
  set (this := mkLogger o (length σ)).
  set (w1 := mkWorld (σ ++ [OArr []]) out [s] []).
  destruct (perform_all_notifies this s cs w1 [])
    as (w' & ns & Hrun & Hdel & _ & Hall); [apply elems_new|done|].
  cbn [delivered w1 app] in Hdel. rewrite <- Hdel in Hall.
  exists this, w'. split; [|split].
  - eapply bind_then; [apply new_run|].
    eapply bind_then; [reflexivity|].
    eapply bind_then; [exact Hrun|reflexivity].
  - symmetry. by eapply Forall2_length.
  - done.
Qed.

(** C10: [snapshot] with [format] omitted is [snapshot(false)]: it
    returns a new array with the references the buffer holds, and not a
    string.  A string is returned only when [format] is [true]. *)
Theorem snapshot_without_format_copies this w rs :
  buffer this w = Some rs →
  Logger.snapshot this None w = Logger.snapshot this (Some false) w ∧
  (∃ a w',
      Logger.snapshot this None w = Some (Logger.SnapArray a, w') ∧
      a ≠ logarr this ∧
      store w !! a = None ∧
      elems (store w') a = elems (store w) (logarr this) ∧
      records (store w') a = Some rs ∧
      buffer this w' = Some rs) ∧
  (∀ format s w',
      Logger.snapshot this format w = Some (Logger.SnapString s, w') →
      format = Some true) ∧
  (∀ format a w',
      Logger.snapshot this format w = Some (Logger.SnapArray a, w') →
      format = None ∨ format = Some false).
Proof.
  intros Hb. pose proof Hb as (xs & Ha & Hxs)%buffer_Some.
  split; [done|]. split; [|split].
  - eexists _, _. split; [by apply snapshot_copy_run|].
    cbn [store set_store]. split; [apply elems_lt in Ha; lia|].
    split; [by apply lookup_ge_None_2|].
    split; [by rewrite elems_new|].
    split; [|by apply buffer_alloc].
    apply records_Some. exists xs.
    split; [apply elems_new|by apply mapM_deref_alloc].
  - intros [[]|] s w'; [done|..].
    + by rewrite (snapshot_copy_run this (Some false) w xs).
    + by rewrite (snapshot_copy_run this None w xs).
  - intros [[]|] a w'; [|by right|by left].
    by rewrite (snapshot_formatted_run this w rs).
Qed.
End claims.

(** * The claims at concrete inputs *)

Section instances.
#[local] Existing Instance chalk.ansi.
Import Scenario.

(** C1, at the input [maxStackSize = 1], [log("a"); log("b")]: the claim
    gives a buffer of [min(2, 1) = 1] record, the record of ["b"]; the
    buffer holds both records.  [createLog] compares the length with the
    limit before it pushes, and shifts only when the length is greater,
    so the array comes to rest at one element more than
    [maxStackSize]. *)
Theorem capacity_one_retains_two_records :
  map msg <$> final_buffer (plain 1) ab = Some ["a"; "b"] ∧
  length <$> final_buffer (plain 1) ab = Some 2%nat.
Proof. split; vm_compute; reflexivity. Qed.

(** C2, the scenario of the specification: [maxStackSize = 2],
    [colored = false], [log("a"); warn("b", "X"); error("c")].  The
    array [snapshot(false)] returns holds three records, the record of
    ["a"] among them; the lines of ["b"] and ["c"] are the ones the
    claim gives. *)
Theorem scenario_snapshot_has_three_records :
  ∃ a w,
    (this <- session (plain 2) abc ;; Logger.snapshot this (Some false))
      empty = Some (Logger.SnapArray a, w) ∧
    map log <$> records (store w) a =
      Some ["[08.03.2024, 21:07:21.1]: a";
            "WARN: [08.03.2024, 21:07:21.2] (X): b";
            "ERROR: [08.03.2024, 21:07:21.3]: c"].
Proof. eexists _, _. split; vm_compute; reflexivity. Qed.

(** C3 fails for a negative [maxStackSize]: [-1] is truthy, so it is
    kept as the limit; every call shifts, and after [log("a"); log("b")]
    the buffer holds the record of ["b"] only, where the default keeps
    both. *)
Lemma negative_maxStackSize_is_not_default :
  map msg <$> final_buffer (plain (-1)) ab = Some ["b"] ∧
  map msg <$> final_buffer (Some (mkLoggerOptions None (Some false))) ab =
    Some ["a"; "b"] ∧
  final_buffer (plain (-1)) ab ≠
    final_buffer (Some (mkLoggerOptions None (Some false))) ab.
Proof. repeat split; vm_compute; [reflexivity..|discriminate]. Qed.

(** C4 fails for the empty-string source: [if (log.from)] takes the
    empty string for an absent source, so the line has [": "] after the
    bracket where the rule for a present source gives [" (): "]. *)
Lemma empty_source_is_rendered_as_absent :
  let r :=
    Logger.prepareLog logger (PrepareLog.mk "m" (Some "") Default)
      (clock 64) in
  log r = "[08.03.2024, 21:07:21.64]: m" ∧
  Spec.format Default (timestamp r) "m" (Some "") false =
    "[08.03.2024, 21:07:21.64] (): m" ∧
  log r ≠ Spec.format Default (timestamp r) "m" (Some "") false.
Proof. repeat split; vm_compute; [reflexivity..|discriminate]. Qed.

(** The theorem for C4 at the logger of [Scenario], for [warn]. *)
Lemma degenerate_inputs_accepted_witness :
  buffer logger world = Some held ∧
  let c := Logger.options_colored logger in
  let made m f :=
    Logger.prepareLog logger (PrepareLog.mk m f Warn) (clock 3) in
  (∀ m f, ∃ w',
      Logger.createLog logger Warn m f (clock 3) world = Some (tt, w') ∧
      buffer logger w' = Some (inserted logger held (made m f))) ∧
  (∀ f,
      msg (made "" f) = "" ∧
      log (made "" f) =
        Spec.severity Warn c +:+ Spec.bracket (timestamp (made "" f)) c +:+
        Spec.source (String_truthy f) c) ∧
  (∀ m,
      from (made m (Some "")) = Some "" ∧
      log (made m (Some "")) =
        Spec.format Warn (timestamp (made m (Some ""))) m None c ∧
      log (made m (Some "")) =
        Spec.severity Warn c +:+
        Spec.bracket (timestamp (made m None)) c +:+ ": " +:+ m).
Proof.
  split; [vm_compute; reflexivity|].
  apply (degenerate_inputs_accepted logger Warn (clock 3) world held).
  reflexivity.
Defined.

(** C5 fails for [generate_array]: the caller that empties the array it
    got from [generate_array] has emptied the buffer, and
    [snapshot(true)] is the empty string afterwards; the caller that
    empties the array it got from [snapshot(false)] has not. *)
Lemma generate_array_is_not_a_copy :
  fst <$> empties_generate_array world = Some (Logger.SnapString "") ∧
  fst <$> empties_snapshot world =
    Some (Logger.SnapString
            ("[08.03.2024, 21:07:21.1]: a" +:+ newline +:+
             "[08.03.2024, 21:07:21.2]: b")) ∧
  fst <$> empties_generate_array world ≠ fst <$> empties_snapshot world.
Proof. repeat split; vm_compute; [reflexivity..|discriminate]. Qed.

(** The theorem for C5 at the logger of [Scenario]. *)
Lemma deprecated_operations_agree_witness :
  buffer logger world = Some held ∧
  (∃ s,
      Logger.generate logger world = Some (s, world) ∧
      Logger.snapshot logger (Some true) world =
        Some (Logger.SnapString s, world)) ∧
  (∃ a w' xs,
      Logger.generate_array logger world = Some (logarr logger, world) ∧
      Logger.snapshot logger (Some false) world =
        Some (Logger.SnapArray a, w') ∧
      a ≠ logarr logger ∧
      elems (store w') (logarr logger) = Some xs ∧
      elems (store w') a = Some xs ∧
      records (store w') (logarr logger) = Some held ∧
      records (store w') a = Some held).
Proof.
  split; [vm_compute; reflexivity|].
  apply (deprecated_operations_agree logger world held).
  vm_compute; reflexivity.
Defined.

(** The theorem for C6 at the logger of [Scenario]. *)
Lemma snapshot_is_independent_witness :
  buffer logger world = Some held ∧
  (∃ s, Logger.snapshot logger (Some true) world =
          Some (Logger.SnapString s, world)) ∧
  ∃ a xs w',
    Logger.snapshot logger (Some false) world =
      Some (Logger.SnapArray a, w') ∧
    a ≠ logarr logger ∧
    store world !! a = None ∧
    w' = set_store world (store world ++ [OArr xs]) ∧
    elems (store w') a = Some xs ∧
    elems (store w') (logarr logger) = Some xs ∧
    buffer logger w' = Some held ∧
    ∀ ps, ∃ out v v',
      run logger a false ps w' = Some (out, v) ∧
      run logger a true ps w' = Some (out, v') ∧
      same_except a v v' ∧
      buffer logger v' = buffer logger v ∧
      is_Some (buffer logger v).
Proof.
  split; [vm_compute; reflexivity|].
  apply (snapshot_is_independent logger world held).
  vm_compute; reflexivity.
Defined.

(** The theorem for C7 at the logger of [Scenario]. *)
Lemma snapshot_formatted_is_join_witness :
  buffer logger world = Some held ∧
  ∃ s a w' copied,
    Logger.snapshot logger (Some true) world =
      Some (Logger.SnapString s, world) ∧
    Logger.snapshot logger (Some false) world =
      Some (Logger.SnapArray a, w') ∧
    records (store w') a = Some copied ∧
    s = join newline (map log copied).
Proof.
  split; [vm_compute; reflexivity|].
  apply (snapshot_formatted_is_join logger world held).
  vm_compute; reflexivity.
Defined.

(** The theorem for C10 at the logger of [Scenario]. *)
Lemma snapshot_without_format_copies_witness :
  buffer logger world = Some held ∧
  Logger.snapshot logger None world =
    Logger.snapshot logger (Some false) world ∧
  (∃ a w',
      Logger.snapshot logger None world = Some (Logger.SnapArray a, w') ∧
      a ≠ logarr logger ∧
      store world !! a = None ∧
      elems (store w') a = elems (store world) (logarr logger) ∧
      records (store w') a = Some held ∧
      buffer logger w' = Some held) ∧
  (∀ format s w',
      Logger.snapshot logger format world =
        Some (Logger.SnapString s, w') →
      format = Some true) ∧
  (∀ format a w',
      Logger.snapshot logger format world =
        Some (Logger.SnapArray a, w') →
      format = None ∨ format = Some false).
Proof.
  split; [vm_compute; reflexivity|].
  apply (snapshot_without_format_copies logger world held).
  vm_compute; reflexivity.
Defined.

(** A remark next to C6: the copy [snapshot(false)] makes is of the array,
    not of the records.  The new array holds the references the buffer
    holds, so an assignment to a field of a record that is reached through
    it shows in the buffer.  (The specification takes records to be
    immutable, and the module never assigns to one.) *)
Lemma snapshot_shares_records :
  fst <$> edits_record_of_snapshot world =
    Some (Logger.SnapString
            ("edited" +:+ newline +:+ "[08.03.2024, 21:07:21.2]: b")).
Proof. vm_compute. reflexivity. Qed.
End instances.


(** * Further properties of the methods *)

(** ** What the operations leave alone *)

Section frame_of_operations.
Context `{!chalk.t}.
Implicit Types (this : Logger) (w : World) (rs : list LogObject).

Lemma after_create_frame this r xs w l :
  l ≠ logarr this → (l < length (store w))%nat →
  store (after_create this r xs w) !! l = store w !! l.
Proof.
  intros Hne Hlt. unfold after_create. cbn [store].
  rewrite list_lookup_insert_ne by done. by apply lookup_app_l.
Qed.

(** An operation writes to the logger's own array and allocates; it
    changes no other object, and an array it returns is the logger's own
    or a new one. *)
Lemma exec_frame this o w rs :
  buffer this w = Some rs →
  ∃ r w' rs',
    exec this o w = Some (r, w') ∧
    buffer this w' = Some rs' ∧
    (length (store w) ≤ length (store w'))%nat ∧
    (∀ l, l ≠ logarr this → (l < length (store w))%nat →
          store w' !! l = store w !! l) ∧
    (∀ a, r = RArray a → a = logarr this ∨ (length (store w) ≤ a)%nat).
Proof.
  intros Hb. pose proof Hb as (xs & Ha & Hxs)%buffer_Some.
  destruct o as [c|format| | |s]; cbn [exec].
  - eexists RUnit, _, _. split; [|split; [|split; [|split]]].
    + eapply bind_then; [by eapply perform_run|reflexivity].
    + by eapply after_create_buffer.
    + unfold after_create. cbn [store].
      rewrite length_insert, length_app. lia.
    + intros l Hne Hlt. by apply after_create_frame.
    + done.
  - destruct (Boolean_truthy format) eqn:Hf.
    + destruct format as [[]|]; try done.
      eexists (RString _), w, rs. split; [|split; [|split; [|split]]];
        try done.
      eapply bind_then; [by apply snapshot_formatted_run|reflexivity].
    + eexists (RArray _), _, rs. split; [|split; [|split; [|split]]].
      * eapply bind_then; [by eapply snapshot_copy_run|reflexivity].
      * by apply buffer_alloc.
      * cbn [store set_store]. rewrite length_app. lia.
      * intros l _ Hlt. cbn [store set_store]. by apply lookup_app_l.
      * intros a [= <-]. by right.
  - eexists (RString _), w, rs. split; [|split; [|split; [|split]]];
      try done.
    eapply bind_then; [by apply generate_run|reflexivity].
  - eexists (RArray _), w, rs. split; [|split; [|split; [|split]]];
      try done.
    intros a [= <-]. by left.
  - eexists RUnit, _, rs. split; [reflexivity|].
    split; [done|]. split; [done|]. by split.
Qed.

Lemma exec_all_frame this os w rs :
  buffer this w = Some rs →
  ∃ out w' rs',
    exec_all this os w = Some (out, w') ∧
    buffer this w' = Some rs' ∧
    (length (store w) ≤ length (store w'))%nat ∧
    (∀ l, l ≠ logarr this → (l < length (store w))%nat →
          store w' !! l = store w !! l) ∧
    (∀ a, RArray a ∈ out → a = logarr this ∨ (length (store w) ≤ a)%nat).
Proof.
  revert w rs. induction os as [|o os IH]; intros w rs Hb.
  - exists [], w, rs. split; [done|]. split; [done|]. split; [done|].
    split; [done|]. intros a Ha. by apply elem_of_nil in Ha.
  - destruct (exec_frame this o w rs Hb)
      as (r & w1 & rs1 & He & Hb1 & Hlen1 & Hfr1 & Hres1).
    destruct (IH w1 rs1 Hb1)
      as (out & w' & rs' & Hr & Hb' & Hlen' & Hfr' & Hres').
    exists (r :: out), w', rs'. split; [|split; [|split; [|split]]].
    + simpl. eapply bind_then; [exact He|].
      eapply bind_then; [exact Hr|reflexivity].
    + done.
    + lia.
    + intros l Hne Hlt. rewrite Hfr' by (done || lia). by apply Hfr1.
    + intros a [Heq|Ha]%elem_of_cons.
      * by apply Hres1.
      * destruct (Hres' a Ha) as [->|Hge]; [by left|right; lia].
Qed.
End frame_of_operations.

(** ** Properties for every logger *)

Section further_properties.
Context `{!chalk.t}.
Implicit Types (this : Logger) (w : World) (rs : list LogObject)
  (cs : list call).

(** Sessions with options that give the same limit and the same colour
    flag run alike. *)
Lemma session_ext (o1 o2 : option LoggerOptions) cs w :
  Boolean_truthy (o1 ≫= colored) = Boolean_truthy (o2 ≫= colored) →
  Number_or (o1 ≫= maxStackSize) 500 = Number_or (o2 ≫= maxStackSize) 500 →
  ∃ this1 this2 w' rs,
    session o1 cs w = Some (this1, w') ∧
    session o2 cs w = Some (this2, w') ∧
    options this1 = o1 ∧ options this2 = o2 ∧
    logarr this1 = logarr this2 ∧
    buffer this1 w' = Some rs ∧ buffer this2 w' = Some rs.
Proof.
  intros Hc Hm.
  set (this1 := mkLogger o1 (length (store w))).
  set (this2 := mkLogger o2 (length (store w))).
  destruct (perform_all_run this1 cs _ [] (new_buffer o1 w))
    as (w' & Hrun & Hb & _).
  exists this1, this2, w'. eexists. split; [|split].
  - unfold session. eapply bind_then; [apply new_run|].
    eapply bind_then; [exact Hrun|reflexivity].
  - unfold session. eapply bind_then; [apply new_run|].
    eapply bind_then; [|reflexivity].
    by rewrite (perform_all_ext this2 this1).
  - by repeat split.
Qed.

(** X1: a record-creating call on a logger whose buffer is intact never
    fails.  It removes at most one record, the oldest, and does so exactly
    when the buffer is longer than the limit before the call; the other
    records stay in their order, the new record becomes the last one, the
    buffer does not get shorter, and the formatted line of the new record
    is the one line the call prints. *)
Theorem createLog_evicts_at_most_the_oldest this ty m f now w rs :
  buffer this w = Some rs →
  let r := Logger.prepareLog this (PrepareLog.mk m f ty) now in
  let kept :=
    if Z.of_nat (length rs) >? Logger.options_maxStackSize this
    then tail rs else rs in
  ∃ w',
    Logger.createLog this ty m f now w = Some (tt, w') ∧
    buffer this w' = Some (kept ++ [r]) ∧
    (length rs ≤ length (kept ++ [r]))%nat ∧
    console w' = console w ++ [log r].
Proof.
  intros Hb r kept. pose proof Hb as (xs & Ha & Hxs)%buffer_Some.
  eexists. split; [by apply createLog_run|].
  split; [by eapply after_create_buffer|]. split; [|done].
  rewrite length_app. unfold kept. destruct (_ >? _); [|lia].
  destruct rs; simpl; lia.
Qed.

(** X2: on a new logger with a limit that is not negative, the buffer
    after [N] record-creating calls holds the records of the most recent
    calls, in the order of the calls, and the number of records it holds
    is the smaller of [N] and the limit plus one. *)
Theorem session_keeps_most_recent (o : option LoggerOptions) cs w :
  let limit := Number_or (o ≫= maxStackSize) 500 in
  0 ≤ limit →
  ∃ this w' rs,
    session o cs w = Some (this, w') ∧
    buffer this w' = Some rs ∧
    rs = drop (length cs - (Z.to_nat limit + 1))
           (map (record_of this) cs) ∧
    length rs = (length cs `min` (Z.to_nat limit + 1))%nat.
Proof.
  intros limit Hlimit.
  destruct (session_retains o cs w Hlimit) as (this & w' & Hrun & Hb).
  eexists this, w', _. split; [exact Hrun|]. split; [exact Hb|].
  split; [done|]. rewrite length_drop, length_map.
  change (Logger.options_maxStackSize (mkLogger o 0%nat)) with limit. lia.
Qed.

(** X3: on a new logger with a negative limit every call shifts before it
    pushes, and the buffer after a sequence of calls holds the record of
    the last call only. *)
Theorem session_with_negative_limit (o : option LoggerOptions) cs c w :
  Number_or (o ≫= maxStackSize) 500 < 0 →
  ∃ this w',
    session o (cs ++ [c]) w = Some (this, w') ∧
    buffer this w' = Some [record_of this c].
Proof. apply session_negative_limit. Qed.

(** X4: the console receives the formatted line of every call, in the
    order of the calls, whatever the limit: lines are printed for records
    that are evicted later, too, and nothing that was on the console is
    removed. *)
Theorem console_receives_every_line (o : option LoggerOptions) cs w :
  ∃ this w',
    session o cs w = Some (this, w') ∧
    console w' = console w ++ map (λ c, log (record_of this c)) cs.
Proof.
  destruct (session_run o cs w) as (w' & Hrun & _ & Hout).
  by eexists _, w'.
Qed.

(** X5: after a session on a new logger with a limit that is not negative,
    [snapshot(true)] is the join with ["\n"] of the lines the session
    printed last: as many of them as there are calls, but the limit plus
    one at most. *)
Theorem formatted_snapshot_joins_last_lines (o : option LoggerOptions)
    cs w :
  let limit := Number_or (o ≫= maxStackSize) 500 in
  0 ≤ limit →
  ∃ this w' lines,
    session o cs w = Some (this, w') ∧
    console w' = console w ++ lines ∧
    length lines = length cs ∧
    Logger.snapshot this (Some true) w' =
      Some (Logger.SnapString
              (join newline
                 (drop (length cs - (Z.to_nat limit + 1)) lines)), w').
Proof.
  intros limit Hlimit.
  destruct (session_run o cs w) as (w' & Hrun & Hb & Hout).
  set (this := mkLogger o (length (store w))) in *.
  exists this, w', (map (λ c, log (record_of this c)) cs).
  split; [exact Hrun|]. split; [exact Hout|].
  split; [by rewrite length_map|].
  erewrite snapshot_formatted_run by exact Hb. do 3 f_equal.
  change (inserted this) with (@insert_at LogObject limit).
  rewrite fold_insert_at by (simpl; lia).
  simpl. rewrite length_map.
  rewrite <- skipn_map. by rewrite map_map.
Qed.

(** X6: the defaults.  A logger constructed without options, one
    constructed with an empty options object, and one constructed with
    [{ maxStackSize: 500, colored: false }] go through every sequence of
    record-creating calls alike: the calls leave the same world and the
    same buffer. *)
Theorem options_default_to_500_uncolored cs w :
  ∃ this1 this2 this3 w' rs,
    session None cs w = Some (this1, w') ∧
    session (Some (mkLoggerOptions None None)) cs w = Some (this2, w') ∧
    session (Some (mkLoggerOptions (Some 500) (Some false))) cs w =
      Some (this3, w') ∧
    logarr this1 = logarr this2 ∧ logarr this1 = logarr this3 ∧
    buffer this1 w' = Some rs ∧
    buffer this2 w' = Some rs ∧
    buffer this3 w' = Some rs.
Proof.
  destruct (session_ext None (Some (mkLoggerOptions None None)) cs w)
    as (this1 & this2 & w' & rs & Hr1 & Hr2 & _ & _ & Ha & Hb1 & Hb2);
    [done..|].
  destruct (session_ext None
              (Some (mkLoggerOptions (Some 500) (Some false))) cs w)
    as (this1' & this3 & w'' & rs' & Hr1' & Hr3 & _ & _ & Ha' & Hb1' & Hb3);
    [done..|].
  rewrite Hr1 in Hr1'. injection Hr1' as <- <-.
  rewrite Hb1 in Hb1'. injection Hb1' as <-.
  by exists this1, this2, this3, w', rs.
Qed.

(** X7: the formatted line, for every severity, message, source, clock
    reading and colour flag.  It is the severity label with [": "] (no
    label for Default), the timestamp in square brackets, the source
    section and the message, in this order; the source section is
    [" ("], the source and ["): "] when the source is a string that is not
    empty, and [": "] otherwise; with the colour flag set the label, the
    timestamp and the source are passed through the decorations blue,
    bright yellow or red, yellow, and cyan.  The timestamp is the clock
    reading, a dot and the milliseconds in decimal. *)
Theorem formatted_line_follows_construction_rule this m f ty date :
  let r := Logger.prepareLog this (PrepareLog.mk m f ty) date in
  let c := Logger.options_colored this in
  timestamp r =
    toLocaleString date +:+ "." +:+ Number_toString (getMilliseconds date) ∧
  log r =
    Spec.severity ty c +:+ Spec.bracket (timestamp r) c +:+
    match f with
    | Some (String x s) =>
        " (" +:+ (if c then chalk.cyan (String x s) else String x s) +:+
        "): "
    | _ => ": "
    end +:+ m.
Proof.
  intros r c. split; [done|]. unfold r. rewrite prepareLog_format.
  unfold Spec.format. by destruct f as [[|x s]|].
Qed.

(** X8: the message is appended as it is.  The formatted line of a call is
    the formatted line of the same call with the empty message, followed
    by the message: the message is not trimmed, escaped or decorated, and
    what precedes it does not depend on it. *)
Theorem message_is_appended_verbatim this m f ty date :
  log (Logger.prepareLog this (PrepareLog.mk m f ty) date) =
    log (Logger.prepareLog this (PrepareLog.mk "" f ty) date) +:+ m.
Proof.
  rewrite !prepareLog_format. unfold Spec.format.
  cbn [PrepareLog.type PrepareLog.msg PrepareLog.from].
  change (timestamp (Logger.prepareLog this (PrepareLog.mk "" f ty) date))
    with (timestamp (Logger.prepareLog this (PrepareLog.mk m f ty) date)).
  by rewrite append_empty_r, !append_assoc.
Qed.

(** X11: the operations of the logger never modify a record.  Whatever
    sequence of record-creating calls, snapshots, [generate],
    [generate_array] and subscriptions is run, a record object that exists
    before still exists afterwards with the same fields, also when it has
    been evicted from the buffer in between. *)
Theorem records_are_never_modified this os w rs :
  buffer this w = Some rs →
  ∃ out w',
    exec_all this os w = Some (out, w') ∧
    ∀ l r, deref (store w) l = Some r → deref (store w') l = Some r.
Proof.
  intros Hb. pose proof Hb as (xs & Ha & _)%buffer_Some.
  destruct (exec_all_frame this os w rs Hb)
    as (out & w' & _ & Hrun & _ & _ & Hfr & _).
  exists out, w'. split; [exact Hrun|]. intros l r Hl.
  apply deref_Some in Hl. apply deref_Some. rewrite Hfr; [done| |].
  - intros ->. apply elems_Some in Ha. congruence.
  - by eapply lookup_lt_Some.
Qed.

(** X12: the array [snapshot(false)] returns is a view of one point in
    time.  It holds the records of the buffer at the time of the call, and
    whatever operations of the logger are run afterwards, it holds the
    same records; none of these operations returns that array again. *)
Theorem snapshot_is_a_point_in_time_view this w rs :
  buffer this w = Some rs →
  ∃ a w0,
    Logger.snapshot this (Some false) w = Some (Logger.SnapArray a, w0) ∧
    records (store w0) a = Some rs ∧
    ∀ os, ∃ out w',
      exec_all this os w0 = Some (out, w') ∧
      elems (store w') a = elems (store w0) a ∧
      records (store w') a = Some rs ∧
      RArray a ∉ out.
Proof.
  intros Hb. pose proof Hb as (xs & Ha & Hxs)%buffer_Some.
  set (a := length (store w)).
  set (w0 := set_store w (store w ++ [OArr xs])).
  assert (a ≠ logarr this) as Hne by (apply elems_lt in Ha; unfold a; lia).
  assert (elems (store w0) a = Some xs) as Hnew by apply elems_new.
  assert (a < length (store w0))%nat as Hlt by by eapply elems_lt.
  assert (buffer this w0 = Some rs) as Hb0 by by apply buffer_alloc.
  assert (mapM (deref (store w0)) xs = Some rs) as Hxs0
    by by apply mapM_deref_alloc.
  exists a, w0. split; [by apply snapshot_copy_run|].
  split; [apply records_Some; by exists xs|].
  intros os.
  destruct (exec_all_frame this os w0 rs Hb0)
    as (out & w' & _ & Hrun & _ & _ & Hfr & Hres).
  assert (elems (store w') a = elems (store w0) a) as Hsame
    by (unfold elems; by rewrite Hfr).
  exists out, w'. split; [exact Hrun|]. split; [exact Hsame|]. split.
  - apply records_Some. exists xs. split; [by rewrite Hsame|].
    rewrite <- Hxs0. apply mapM_deref_ext. intros l Hl.
    apply mapM_Some in Hxs0.
    apply list_elem_of_lookup_1 in Hl as [i Hi].
    destruct (Forall2_lookup_l _ _ _ _ _ Hxs0 Hi) as (r & _ & Hr).
    assert (l ≠ logarr this) as Hl_ne.
    { intros ->. apply deref_Some in Hr. apply buffer_Some in Hb0.
      destruct Hb0 as (? & Ha0%elems_Some & _). congruence. }
    unfold deref. rewrite Hfr; [done|done|].
    apply deref_Some in Hr. by eapply lookup_lt_Some.
  - intros Hin. destruct (Hres a Hin); [done|lia].
Qed.
(** X13: a new logger is empty, whatever its options: [snapshot(true)]
    and [generate()] return the empty string, and the array
    [snapshot(false)] returns has no elements. *)
Theorem new_logger_is_empty (o : option LoggerOptions) (w : World) :
  ∃ this w0 a w1,
    Logger.new o w = Some (this, w0) ∧
    buffer this w0 = Some [] ∧
    Logger.snapshot this (Some true) w0 =
      Some (Logger.SnapString "", w0) ∧
    Logger.generate this w0 = Some ("", w0) ∧
    Logger.snapshot this (Some false) w0 = Some (Logger.SnapArray a, w1) ∧
    elems (store w1) a = Some [].
Proof.
  pose proof (new_buffer o w) as Hb.
  eexists _, _, _, _. split; [apply new_run|]. split; [exact Hb|].
  split; [by rewrite (snapshot_formatted_run _ _ [])|].
  split; [by rewrite (generate_run _ _ [])|]. split.
  - apply (snapshot_copy_run _ (Some false) _ []); [done|].
    apply elems_new.
  - apply elems_new.
Qed.

End further_properties.

(** ** The decorations *)

(** X9: a logger that is not coloured never calls a decoration.  Whatever
    the decorations do, the record of a call and the whole effect of the
    call are the same. *)
Theorem uncolored_logger_ignores_chalk (c1 c2 : chalk.t) (this : Logger) :
  Logger.options_colored this = false →
  (∀ p date,
      @Logger.prepareLog c1 this p date = @Logger.prepareLog c2 this p date) ∧
  (∀ ty m f now,
      @Logger.createLog c1 this ty m f now =
      @Logger.createLog c2 this ty m f now).
Proof.
  intros Hc.
  assert (∀ p date, @Logger.prepareLog c1 this p date =
                    @Logger.prepareLog c2 this p date) as Hp.
  { intros p date. unfold Logger.prepareLog. by rewrite Hc. }
  split; [exact Hp|]. intros ty m f now. unfold Logger.createLog.
  by rewrite Hp.
Qed.

(** X10: with decorations that return their argument, as on an output
    without colour support, the [colored] option has no effect: a coloured
    and an uncoloured logger make the same record. *)
Theorem plain_chalk_ignores_colored (this1 this2 : Logger) p date :
  @Logger.prepareLog chalk.none this1 p date =
  @Logger.prepareLog chalk.none this2 p date.
Proof.
  destruct p as [m f ty]. unfold Logger.prepareLog.
  cbn [PrepareLog.type PrepareLog.msg PrepareLog.from].
  destruct (Logger.options_colored this1), (Logger.options_colored this2),
    ty, (String_truthy f); reflexivity.
Qed.

(** ** Properties at concrete inputs *)

Section further_instances.
#[local] Existing Instance chalk.ansi.
Import Scenario.

(** The theorem X1 at the logger of [Scenario], for [warn("m", "X")]. *)
Lemma createLog_evicts_at_most_the_oldest_witness :
  buffer logger world = Some held ∧
  let r :=
    Logger.prepareLog logger (PrepareLog.mk "m" (Some "X") Warn) (clock 3) in
  let kept :=
    if Z.of_nat (length held) >? Logger.options_maxStackSize logger
    then tail held else held in
  ∃ w',
    Logger.createLog logger Warn "m" (Some "X") (clock 3) world =
      Some (tt, w') ∧
    buffer logger w' = Some (kept ++ [r]) ∧
    (length held ≤ length (kept ++ [r]))%nat ∧
    console w' = console world ++ [log r].
Proof.
  split; [vm_compute; reflexivity|].
  apply (createLog_evicts_at_most_the_oldest logger Warn "m" (Some "X")
           (clock 3) world held).
  vm_compute; reflexivity.
Defined.

(** The theorem X2 for the limit 1 and [abc]. *)
Lemma session_keeps_most_recent_witness :
  let limit := Number_or (plain 1 ≫= maxStackSize) 500 in
  0 ≤ limit ∧
  ∃ this w' rs,
    session (plain 1) abc empty = Some (this, w') ∧
    buffer this w' = Some rs ∧
    rs = drop (length abc - (Z.to_nat limit + 1))
           (map (record_of this) abc) ∧
    length rs = (length abc `min` (Z.to_nat limit + 1))%nat.
Proof.
  split; [vm_compute; discriminate|].
  apply (session_keeps_most_recent (plain 1) abc empty).
  vm_compute; discriminate.
Defined.

(** The theorem X3 for the limit -1 and [ab]. *)
Lemma session_with_negative_limit_witness :
  Number_or (plain (-1) ≫= maxStackSize) 500 < 0 ∧
  ∃ this w',
    session (plain (-1))
      ([mkCall Default "a" None (clock 1)] ++
       [mkCall Default "b" None (clock 2)]) empty = Some (this, w') ∧
    buffer this w' = Some [record_of this (mkCall Default "b" None (clock 2))].
Proof.
  split; [vm_compute; reflexivity|].
  apply (session_with_negative_limit (plain (-1))
           [mkCall Default "a" None (clock 1)]
           (mkCall Default "b" None (clock 2)) empty).
  vm_compute; reflexivity.
Defined.

(** The theorem X5 for the limit 1 and [abc]. *)
Lemma formatted_snapshot_joins_last_lines_witness :
  let limit := Number_or (plain 1 ≫= maxStackSize) 500 in
  0 ≤ limit ∧
  ∃ this w' lines,
    session (plain 1) abc empty = Some (this, w') ∧
    console w' = console empty ++ lines ∧
    length lines = length abc ∧
    Logger.snapshot this (Some true) w' =
      Some (Logger.SnapString
              (join newline
                 (drop (length abc - (Z.to_nat limit + 1)) lines)), w').
Proof.
  split; [vm_compute; discriminate|].
  apply (formatted_snapshot_joins_last_lines (plain 1) abc empty).
  vm_compute; discriminate.
Defined.

(** The theorem X9 at the logger of [Scenario], for the decorations of a
    colour terminal and the ones that return their argument. *)
Lemma uncolored_logger_ignores_chalk_witness :
  Logger.options_colored logger = false ∧
  (∀ p date,
      @Logger.prepareLog chalk.ansi logger p date =
      @Logger.prepareLog chalk.none logger p date) ∧
  (∀ ty m f now,
      @Logger.createLog chalk.ansi logger ty m f now =
      @Logger.createLog chalk.none logger ty m f now).
Proof.
  split; [vm_compute; reflexivity|].
  apply (uncolored_logger_ignores_chalk chalk.ansi chalk.none logger).
  vm_compute; reflexivity.
Defined.

(** The theorem X11 at the logger of [Scenario], for a call, a snapshot
    and [generate]. *)
Lemma records_are_never_modified_witness :
  buffer logger world = Some held ∧
  ∃ out w',
    exec_all logger
      [Create (mkCall Error "c" None (clock 3)); Snapshot None; Generate]
      world = Some (out, w') ∧
    ∀ l r, deref (store world) l = Some r → deref (store w') l = Some r.
Proof.
  split; [vm_compute; reflexivity|].
  apply (records_are_never_modified logger
           [Create (mkCall Error "c" None (clock 3)); Snapshot None;
            Generate] world held).
  vm_compute; reflexivity.
Defined.

(** The theorem X12 at the logger of [Scenario]. *)
Lemma snapshot_is_a_point_in_time_view_witness :
  buffer logger world = Some held ∧
  ∃ a w0,
    Logger.snapshot logger (Some false) world =
      Some (Logger.SnapArray a, w0) ∧
    records (store w0) a = Some held ∧
    ∀ os, ∃ out w',
      exec_all logger os w0 = Some (out, w') ∧
      elems (store w') a = elems (store w0) a ∧
      records (store w') a = Some held ∧
      RArray a ∉ out.
Proof.
  split; [vm_compute; reflexivity|].
  apply (snapshot_is_a_point_in_time_view logger world held).
  vm_compute; reflexivity.
Defined.
End further_instances.
